(** * Strided tensor bridge of the Enoki Python bindings

    A shallow embedding of [src/python/common.h]: the recursive strided
    copies [copy_array_gather] and [copy_array_scatter], the two PyTorch
    conversions built on them, the NumPy conversion [enoki_to_numpy] with
    its [CUDAManagedBuffer], the dtype table [torch_dtype] and the bound
    [__getitem__], [__setitem__] and [__len__].

    Conventions.
    - [size_t] and [uint32_t] values are integers of [Z]; every place where
      the C++ code wraps or truncates is written out with [to_size_t] and
      [to_uint32].
    - Device memory reached through [CUDAArray<Scalar>::map(ptr, size)] is a
      partial function from element index to cell; [None] is an address
      that does not belong to the allocation.
    - Behaviour that C++ leaves undefined (an access outside the mapped
      allocation, [coeff(i)] past a static extent) is the result [None] of
      the copy routines and [Undefined] of the binding functions. *)

From Stdlib Require Import ZArith String.
From stdpp Require Import base option list numbers strings.

Local Open Scope Z_scope.

(** ** Machine integers *)

Definition to_size_t (z : Z) : Z := z mod 2 ^ 64.
Definition to_uint32 (z : Z) : Z := z mod 2 ^ 32.

(** ** The array library's vector primitives

    [arange], [fmadd], [gather] and [scatter] belong to the array library
    (the headers [enoki/cuda.h] and [enoki/array.h]); the bridge only calls
    them.  They are given here with their lane-wise meaning. *)

(** [arange<UInt32>(n)]: the lanes [0, 1, ..., n-1]. *)
Definition arange (n : Z) : list Z := seqZ 0 n.

(** [fmadd(a, b, c)] on [UInt32] lanes with the scalars [b] and [c]
    broadcast: [a * b + c] in 32-bit unsigned arithmetic. *)
Definition fmadd (a : list Z) (b c : Z) : list Z :=
  (fun x => to_uint32 (x * b + c)) <$> a.

(** The index vector both copy routines build at the innermost dimension:
    [fmadd(arange<UInt32>((uint32_t) shape[Index]),
           (uint32_t) strides[Index], (uint32_t) offset)]. *)
Definition innermost_index (extent stride offset : Z) : list Z :=
  fmadd (arange (to_uint32 extent)) (to_uint32 stride) (to_uint32 offset).

Section Bridge.
Context {Scalar : Type}.

(** *** Data *)

(** Cells of a device allocation, indexed from the mapped pointer. *)
Definition memory : Type := Z -> option Scalar.

(** [CUDAArray<Scalar>::map(ptr, size)]: a non-owning view. The element
    count [m_size] is recorded by [map]; [gather] and [scatter] address
    the cells through the pointer and never consult it. *)
Record mapped_array : Type := Mapped { m_cells : memory; m_size : Z }.

(** A Logical Array: a [CUDAArray<Scalar>] (depth 1, dynamic size) or an
    [enoki::Array<Value, Size>] of nested arrays (static size). *)
#[warnings="-register-all"]
Inductive array : Type :=
| DynArray (data : list Scalar)
| StaticArray (coeffs : list array).

(** [a.coeff(i)] on a static array; outside the static extent there is no
    such component. *)
Definition coeff (a : array) (i : Z) : option array :=
  match a with
  | StaticArray cs => if decide (0 <= i) then cs !! Z.to_nat i else None
  | DynArray _ => None
  end.

(** Assignment through the reference [a.coeff(i)]. *)
Definition set_coeff (a : array) (i : Z) (c : array) : option array :=
  match a with
  | StaticArray cs =>
      if decide (0 <= i < Z.of_nat (length cs))
      then Some (StaticArray (<[Z.to_nat i := c]> cs)) else None
  | DynArray _ => None
  end.

(** [a.size()]. *)
Definition size (a : array) : Z :=
  match a with
  | DynArray xs => Z.of_nat (length xs)
  | StaticArray cs => Z.of_nat (length cs)
  end.

(** [enoki::shape(a)]: the extent of every nesting level, outermost
    first, read along the first component of each level. *)
Fixpoint shape (a : array) : list Z :=
  match a with
  | DynArray xs => [Z.of_nat (length xs)]
  | StaticArray cs =>
      Z.of_nat (length cs) :: match cs with c :: _ => shape c | [] => [] end
  end.

(** *** Primitives on memory *)

(** [gather<Target>(source, index)]: lane [k] reads [source[index[k]]]. *)
Definition gather (source : mapped_array) (index : list Z)
  : option (list Scalar) :=
  mapM (m_cells source) index.

(** One lane of a scatter: [target[j] = v]. *)
Definition store (cells : memory) (j : Z) (v : Scalar) : memory :=
  fun k => if decide (k = j) then Some v else cells k.

Fixpoint scatter_lanes (cells : memory) (source : list Scalar)
  (index : list Z) : option memory :=
  match source, index with
  | [], [] => Some cells
  | v :: source', j :: index' =>
      match cells j with
      | Some _ => scatter_lanes (store cells j v) source' index'
      | None => None
      end
  | _, _ => None
  end.

(** [scatter(target, source, index)]: lane [k] writes [source[k]] to
    [target[index[k]]]; lanes are taken in order, so of two lanes with
    the same index the later one is the value left in memory.  The
    operands have one lane each per index; operands of other sizes are
    outside this model ([None]). *)
Definition scatter (target : mapped_array) (source : list Scalar)
  (index : list Z) : option mapped_array :=
  cells' ← scatter_lanes (m_cells target) source index;
  Some (Mapped cells' (m_size target)).

(** *** Loops *)

(** [for (size_t i = first; count iterations; ++i) body]. *)
Fixpoint for_loop {State : Type} (count : nat) (i : Z)
  (body : Z -> State -> option State) (s : State) : option State :=
  match count with
  | O => Some s
  | S count' => s' ← body i s; for_loop count' (i + 1) body s'
  end.

(** *** The strided copies *)

(** [copy_array_gather<Index, Dim>]; [rest] is [Dim - 1 - Index], the
    number of template instantiations still below this one.  The loop
    state is the pair of the target and the running [offset]. *)
Fixpoint copy_array_gather_rec (rest : nat) (Index : nat) (offset : Z)
  (shp strides : list Z) (source : mapped_array) (target : array)
  : option array :=
  match rest with
  | O =>
      let index := innermost_index (nth Index shp 0) (nth Index strides 0)
                     offset in
      match target with
      | DynArray _ => DynArray <$> gather source index
      | StaticArray _ => None
      end
  | S rest' =>
      let step := nth Index strides 0 in
      fst <$> for_loop (Z.to_nat (nth Index shp 0)) 0
        (fun i '(target, offset) =>
           c ← coeff target i;
           c' ← copy_array_gather_rec rest' (S Index) offset
                  shp strides source c;
           target' ← set_coeff target i c';
           Some (target', to_size_t (offset + step)))
        (target, offset)
  end.

Definition copy_array_gather (Index : nat) (offset : Z)
  (shp strides : list Z) (source : mapped_array) (target : array)
  : option array :=
  if decide (Index < length shp)%nat
  then copy_array_gather_rec (length shp - 1 - Index) Index offset
         shp strides source target
  else None.

(** [copy_array_scatter<Index, Dim>]; the loop state is the pair of the
    mapped target and the running [offset]. *)
Fixpoint copy_array_scatter_rec (rest : nat) (Index : nat) (offset : Z)
  (shp strides : list Z) (source : array) (target : mapped_array)
  : option mapped_array :=
  match rest with
  | O =>
      let index := innermost_index (nth Index shp 0) (nth Index strides 0)
                     offset in
      match source with
      | DynArray xs => scatter target xs index
      | StaticArray _ => None
      end
  | S rest' =>
      let step := nth Index strides 0 in
      fst <$> for_loop (Z.to_nat (nth Index shp 0)) 0
        (fun i '(target, offset) =>
           c ← coeff source i;
           target' ← copy_array_scatter_rec rest' (S Index) offset
                       shp strides c target;
           Some (target', to_size_t (offset + step)))
        (target, offset)
  end.

Definition copy_array_scatter (Index : nat) (offset : Z)
  (shp strides : list Z) (source : array) (target : mapped_array)
  : option mapped_array :=
  if decide (Index < length shp)%nat
  then copy_array_scatter_rec (length shp - 1 - Index) Index offset
         shp strides source target
  else None.

(** *** The recursive contract in closed form

    The copies as the design describes them, with the offset of the [i]-th
    recursive call written [offset + i * stride] instead of being
    accumulated, and with the integer conversion [trunc] applied where an
    index or a lane count is formed.  [trunc := id] is the contract read
    over unbounded integers; [trunc := to_uint32] is the contract in the
    arithmetic of the index vectors. *)

Section Contract.
Variable trunc : Z -> Z.

Definition contract_index (extent stride offset : Z) : list Z :=
  (fun i => trunc (offset + i * stride)) <$> seqZ 0 (trunc extent).

Fixpoint gather_contract (rest : nat) (Index : nat) (offset : Z)
  (shp strides : list Z) (source : mapped_array) (target : array)
  : option array :=
  match rest with
  | O =>
      match target with
      | DynArray _ =>
          DynArray <$> gather source
            (contract_index (nth Index shp 0) (nth Index strides 0) offset)
      | StaticArray _ => None
      end
  | S rest' =>
      for_loop (Z.to_nat (nth Index shp 0)) 0
        (fun i target =>
           c ← coeff target i;
           c' ← gather_contract rest' (S Index)
                  (offset + i * nth Index strides 0) shp strides source c;
           set_coeff target i c')
        target
  end.

Fixpoint scatter_contract (rest : nat) (Index : nat) (offset : Z)
  (shp strides : list Z) (source : array) (target : mapped_array)
  : option mapped_array :=
  match rest with
  | O =>
      match source with
      | DynArray xs =>
          scatter target xs
            (contract_index (nth Index shp 0) (nth Index strides 0) offset)
      | StaticArray _ => None
      end
  | S rest' =>
      for_loop (Z.to_nat (nth Index shp 0)) 0
        (fun i target =>
           c ← coeff source i;
           scatter_contract rest' (S Index)
             (offset + i * nth Index strides 0) shp strides c target)
        target
  end.

End Contract.

End Bridge.

Arguments memory : clear implicits.
Arguments mapped_array : clear implicits.
Arguments array : clear implicits.

(** ** Results of the binding functions *)

(** The C++ exceptions the binding layer throws or lets through. *)
Inductive exn : Type :=
| index_error
| reference_cast_error
| cast_error
| runtime_error (what : string).

Inductive outcome (A : Type) : Type :=
| Ok (a : A)
| Throw (e : exn)
| Undefined.

Arguments Ok {A} a.
Arguments Throw {A} e.
Arguments Undefined {A}.

(** What a conversion does to external memory, in program order: the
    mapping of the foreign pointer, the strided copy with the shape and
    stride arrays it is handed, and the flush of queued device work. *)
Inductive event : Type :=
| map_memory (size : Z)
| gather_memory (shp strides : list Z)
| scatter_memory (shp strides : list Z)
| cuda_eval.

(** A binding function: the memory events it performed and its outcome. *)
Definition M (A : Type) : Type := list event * outcome A.

#[global] Instance M_ret : MRet M := fun A a => ([], Ok a).

#[global] Instance M_bind : MBind M := fun A B k m =>
  match m with
  | (log, Ok a) => let '(log', r) := k a in (log ++ log', r)
  | (log, Throw e) => (log, Throw e)
  | (log, Undefined) => (log, Undefined)
  end.

Definition throw {A} (e : exn) : M A := ([], Throw e).
Definition tell (ev : event) : M unit := ([ev], Ok tt).
Definition lift {A} (r : outcome A) : M A := ([], r).
Definition defined {A} (o : option A) : M A :=
  match o with Some a => mret a | None => ([], Undefined) end.

(** ** Scalar types and the dtype table *)

(** What [torch_dtype] asks of its template argument: which of the three
    floating-point types it is, or [std::is_integral_v] with
    [std::is_signed_v], and [sizeof]. *)
Inductive scalar_class : Type :=
| enoki_half
| float
| double
| integral (is_signed : bool)
| other_class.

Record scalar_type : Type :=
  { sc_class : scalar_class; sizeof : Z }.

(** A dtype object of the [torch] module, identified by its attribute
    name: [torch.attr(name)]. *)
Definition dtype : Type := string.

(** [torch_dtype<Scalar>()].  The import of the [torch] module is taken to
    succeed. *)
Definition torch_dtype (Scalar : scalar_type) : outcome dtype :=
  let name : option string :=
    match sc_class Scalar with
    | enoki_half => Some "float16"
    | float => Some "float32"
    | double => Some "float64"
    | integral is_signed =>
        if decide (sizeof Scalar = 1)
        then Some (if is_signed then "int8" else "uint8")
        else if decide (sizeof Scalar = 2) then Some "int16"
        else if decide (sizeof Scalar = 4) then Some "int32"
        else if decide (sizeof Scalar = 8) then Some "int64"
        else None
    | other_class => None
    end%string in
  match name with
  | None => Throw (runtime_error "pytorch_dtype(): Unsupported type")
  | Some name => Ok name
  end.

(** The scalar types of the arrays the module binds. *)
Definition scalar_float : scalar_type := {| sc_class := float; sizeof := 4 |}.
Definition scalar_uint32_t : scalar_type :=
  {| sc_class := integral false; sizeof := 4 |}.
Definition scalar_uint64_t : scalar_type :=
  {| sc_class := integral false; sizeof := 8 |}.
Definition scalar_bool : scalar_type :=
  {| sc_class := integral false; sizeof := 1 |}.

(** ** The foreign tensor *)

Section Torch.
Context {Scalar : Type}.

(** The Python object handed to the conversion, with what the conversion
    reads from it: the name of its type, [.shape], [.dtype], [.stride()]
    and the memory behind [.data_ptr()]. *)
Record tensor : Type :=
  { t_type_name : string;
    t_shape : list Z;
    t_dtype : dtype;
    t_stride : list Z;
    t_storage : memory Scalar }.

(** Strides of a contiguous row-major tensor of the given shape. *)
Fixpoint contiguous_strides (shp : list Z) : list Z :=
  match shp with
  | [] => []
  | _ :: rest =>
      foldr (fun n acc => Z.max n 1 * acc) 1 rest :: contiguous_strides rest
  end.

(** [torch.empty(shape, dtype=..., device="cuda")]: a fresh contiguous
    tensor; the cells of the new allocation hold whatever [init] says. *)
Definition torch_empty (init : Z -> Scalar) (shp : list Z) (dt : dtype)
  : tensor :=
  let numel := foldr Z.mul 1 shp in
  {| t_type_name := "Tensor";
     t_shape := shp;
     t_dtype := dt;
     t_stride := contiguous_strides shp;
     t_storage := fun j => if decide (0 <= j < numel) then Some (init j)
                           else None |}.

(** [py::cast<std::array<size_t, Depth>>(obj)]: the sequence must have
    [Depth] entries, each one a [size_t]. *)
Definition cast_size_t_array (Depth : nat) (l : list Z) : outcome (list Z) :=
  if decide (length l = Depth /\ Forall (fun x => 0 <= x < 2 ^ 64) l)
  then Ok l else Throw cast_error.

(** [size_t size = 1; for (size_t i : shape) size *= i;] *)
Definition element_count (shp : list Z) : Z :=
  foldl (fun size i => to_size_t (size * i)) 1 shp.

(** [type_name.find("Tensor") != std::string::npos] *)
Definition contains_Tensor (type_name : string) : bool :=
  bool_decide (is_Some (String.index 0 "Tensor" type_name)).

(** A default-constructed [Array] whose outer levels have the static
    sizes [static], outermost first. *)
Fixpoint default_array (static : list nat) : array Scalar :=
  match static with
  | [] => DynArray []
  | n :: rest => StaticArray (replicate n (default_array rest))
  end.

(** [enoki_to_torch<Array>(src, eval)]; [Scalar_t] is [scalar_t<Array>]
    and [Depth], [array_depth_v<Array>], is the nesting depth of [src].
    [cuda_eval()] only flushes queued device work: the tensor returned here
    is the one seen once the scatter has run, with or without it. *)
Definition enoki_to_torch (Scalar_t : scalar_type) (init : Z -> Scalar)
  (src : array Scalar) (eval : bool) : M tensor :=
  let shp := shape src in
  let Depth := length shp in
  let shape_rev := rev shp in
  dtype_obj ← lift (torch_dtype Scalar_t);
  let result := torch_empty init shape_rev dtype_obj in
  let size := element_count shp in
  strides ← lift (cast_size_t_array Depth (t_stride result));
  let strides := rev strides in
  tell (map_memory size);;
  let target := Mapped (t_storage result) size in
  tell (scatter_memory shp strides);;
  target' ← defined (copy_array_scatter 0 0 shp strides src target);
  (if eval then tell cuda_eval else mret tt);;
  mret {| t_type_name := t_type_name result;
          t_shape := t_shape result;
          t_dtype := t_dtype result;
          t_stride := t_stride result;
          t_storage := m_cells target' |}.

(** [torch_to_enoki<Array>(src)]; [Scalar_t] is [scalar_t<Array>] and
    [static] lists the static sizes of the outer levels of [Array], so
    that [Depth] is one more than their number. *)
Definition torch_to_enoki (Scalar_t : scalar_type) (static : list nat)
  (src : tensor) : M (array Scalar) :=
  let Depth := S (length static) in
  let type_name := t_type_name src in
  if negb (contains_Tensor type_name) then throw reference_cast_error else
  let shape_obj := t_shape src in
  let dtype_obj := t_dtype src in
  target_dtype ← lift (torch_dtype Scalar_t);
  if bool_decide (length shape_obj ≠ Depth)
      || negb (bool_decide (dtype_obj = target_dtype))
  then throw reference_cast_error else
  shp ← lift (cast_size_t_array Depth shape_obj);
  strides ← lift (cast_size_t_array Depth (t_stride src));
  let shp := rev shp in
  let strides := rev strides in
  let size := element_count shp in
  tell (map_memory size);;
  let source := Mapped (t_storage src) size in
  let result := default_array static in
  tell (gather_memory shp strides);;
  defined (copy_array_gather 0 0 shp strides source result).

(** *** Element access *)

(** [value_t<Array>]: a scalar of a depth-1 array, a nested array above. *)
Inductive value : Type :=
| scalar_value (x : Scalar)
| array_value (a : array Scalar).

(** The [__getitem__] lambda of [bind]; [index] is a [size_t]. *)
Definition getitem (a : array Scalar) (index : Z) : outcome value :=
  if decide (index >= size a) then Throw index_error else
  if decide (0 <= index) then
    match a with
    | DynArray xs =>
        match xs !! Z.to_nat index with
        | Some x => Ok (scalar_value x)
        | None => Undefined
        end
    | StaticArray cs =>
        match cs !! Z.to_nat index with
        | Some c => Ok (array_value c)
        | None => Undefined
        end
    end
  else Undefined.

End Torch.

Arguments tensor : clear implicits.
Arguments value : clear implicits.

(** Memory holding the cells of a list, from index 0. *)
Definition mem_of_list {Scalar} (l : list Scalar) : memory Scalar :=
  fun j => if decide (0 <= j) then l !! Z.to_nat j else None.

(** ** Flat indices of a traversal *)

(** The indices the innermost vector operations of dimensions
    [Index .. Index + rest] address, in the order of the traversal. *)
Fixpoint flat_indices_rec (rest : nat) (Index : nat) (offset : Z)
  (shp strides : list Z) : list Z :=
  match rest with
  | O => innermost_index (nth Index shp 0) (nth Index strides 0) offset
  | S rest' =>
      i ← seqZ 0 (nth Index shp 0);
      flat_indices_rec rest' (S Index) (offset + i * nth Index strides 0)
        shp strides
  end.

Definition flat_indices (offset : Z) (shp strides : list Z) : list Z :=
  flat_indices_rec (length shp - 1) 0 offset shp strides.

(** [linear idx Index strides] is the sum of [i_d * strides[d]] over the
    positions [idx] of the dimensions from [Index] on. *)
Fixpoint linear (idx : list Z) (Index : nat) (strides : list Z) : Z :=
  match idx with
  | [] => 0
  | i :: idx' => i * nth Index strides 0 + linear idx' (S Index) strides
  end.

(** A position [idx] of the dimensions from [Index] on lies in the
    traversal: each [i_d] is below its extent, the innermost one below the
    32-bit lane count. *)
Fixpoint visited (idx : list Z) (Index : nat) (shp : list Z) : Prop :=
  match idx with
  | [] => False
  | [i] => 0 <= i < to_uint32 (nth Index shp 0)
  | i :: idx' => 0 <= i < nth Index shp 0 /\ visited idx' (S Index) shp
  end.

(** ** Arrays of a given shape *)

(** [a] has the extents [shp] from dimension [Index] on: every static
    level has [shp[d]] components and every depth-1 slice has [shp[last]]
    elements, a count that fits the 32-bit lanes. *)
Fixpoint has_shape {Scalar} (rest : nat) (Index : nat) (shp : list Z)
  (a : array Scalar) : bool :=
  match rest, a with
  | O, DynArray xs =>
      bool_decide (Z.of_nat (length xs) = nth Index shp 0
                   /\ nth Index shp 0 < 2 ^ 32)
  | S rest', StaticArray cs =>
      bool_decide (Z.of_nat (length cs) = nth Index shp 0)
      && forallb (has_shape rest' (S Index) shp) cs
  | _, _ => false
  end.

(** [a] has the static extents of [shp]; its depth-1 slices are
    arbitrary (a target about to be overwritten). *)
Fixpoint has_static_shape {Scalar} (rest : nat) (Index : nat) (shp : list Z)
  (a : array Scalar) : bool :=
  match rest, a with
  | O, DynArray _ => true
  | S rest', StaticArray cs =>
      bool_decide (Z.of_nat (length cs) = nth Index shp 0)
      && forallb (has_static_shape rest' (S Index) shp) cs
  | _, _ => false
  end.

(** The element of [a] at the position [idx], outermost index first. *)
Fixpoint element {Scalar} (idx : list Z) (a : array Scalar) : option Scalar :=
  match idx, a with
  | [i], DynArray xs => if decide (0 <= i) then xs !! Z.to_nat i else None
  | i :: idx', StaticArray cs =>
      if decide (0 <= i)
      then match cs !! Z.to_nat i with
           | Some c => element idx' c
           | None => None
           end
      else None
  | _, _ => None
  end.

(** The last dimension is the fastest-varying one of a stride array: no
    other dimension has a smaller stride. *)
Definition fastest_varying_last (strides : list Z) : Prop :=
  match last strides with
  | Some s => Forall (fun s' => s <= s') strides
  | None => True
  end.

(** ** Concrete inputs *)

(** An allocation of [n] cells, cell [j] holding [f j]. *)
Definition allocation {Scalar} (n : Z) (f : Z -> Scalar) : mapped_array Scalar :=
  Mapped (fun j => if decide (0 <= j < n) then Some (f j) else None) n.

(** [2^32 + 1] cells: a 9 in the last one, 7 everywhere else. *)
Definition source_over_4G : mapped_array Z :=
  allocation (2 ^ 32 + 1) (fun j => if decide (j = 2 ^ 32) then 9 else 7).

(** [2^32 + 2] zeroed cells. *)
Definition target_over_4G : mapped_array Z :=
  allocation (2 ^ 32 + 2) (fun _ => 0).

(** A depth-2 array of shape (2,3): rows [1 2 3] and [4 5 6]. *)
Definition array_2x3 : array Z :=
  StaticArray [DynArray [1; 2; 3]; DynArray [4; 5; 6]].

(** A float32 tensor of shape (1,2), contiguous, holding 10 and 20. *)
Definition tensor_1x2 : tensor Z :=
  {| t_type_name := "Tensor";
     t_shape := [1; 2];
     t_dtype := "float32";
     t_stride := [2; 1];
     t_storage := mem_of_list [10; 20] |}.

(** ** What a traversal reads and writes *)

(** The elements of an array in the order the scatter takes them. *)
#[warnings="-register-all"]
Fixpoint flat_values {Scalar} (a : array Scalar) : list Scalar :=
  match a with
  | DynArray xs => xs
  | StaticArray cs => c ← cs; flat_values c
  end.

(** The array a gather of dimensions [Index .. Index + rest] assembles
    from memory, whatever the target held before. *)
Fixpoint gathered {Scalar} (rest : nat) (Index : nat) (offset : Z)
  (shp strides : list Z) (source : mapped_array Scalar)
  : option (array Scalar) :=
  match rest with
  | O =>
      DynArray <$> gather source
        (innermost_index (nth Index shp 0) (nth Index strides 0) offset)
  | S rest' =>
      StaticArray <$> mapM
        (fun i => gathered rest' (S Index) (offset + i * nth Index strides 0)
                    shp strides source)
        (seqZ 0 (nth Index shp 0))
  end.

(** An array is regular when it has the shape [enoki::shape] reports for
    it (no component is shorter or longer than the first one) and its
    innermost extent fits the 32-bit lanes. *)
Definition regular {Scalar} (a : array Scalar) : bool :=
  has_shape (length (shape a) - 1) 0 (shape a) a.

(** The static sizes of the array type of [a], outermost first. *)
Definition static_sizes {Scalar} (a : array Scalar) : list nat :=
  Z.to_nat <$> take (length (shape a) - 1) (shape a).

(** The number of cells a dense layout of the given extents spans, an
    empty extent counted as 1 (as the strides of [torch.empty] do). *)
Definition capacity (shp : list Z) : Z :=
  foldr (fun n acc => Z.max n 1 * acc) 1 shp.

(** The strides of a dense layout whose first dimension varies fastest:
    [p] for the first dimension, then the running product of extents. *)
Fixpoint dense_strides (p : Z) (shp : list Z) : list Z :=
  match shp with
  | [] => []
  | s :: rest => p :: dense_strides (p * Z.max s 1) rest
  end.

(** ** Element assignment *)

Section SetItem.
Context {Scalar : Type}.

(** The [__setitem__] lambda of [bind], bound for arrays of depth above 1;
    [Array::Size] is the static size of [a].  A depth-1 array has no such
    method and is outside this model. *)
Definition setitem (a : array Scalar) (index : Z) (b : array Scalar)
  : outcome (array Scalar) :=
  match a with
  | StaticArray cs =>
      if decide (index >= Z.of_nat (length cs)) then Throw index_error
      else match set_coeff a index b with
           | Some a' => Ok a'
           | None => Undefined
           end
  | DynArray _ => Undefined
  end.

(** The [__len__] lambda of [bind]. *)
Definition len (a : array Scalar) : Z := size a.

End SetItem.

(** ** The conversion to a NumPy array *)

Section NumPy.
Context {Scalar : Type}.

(** What [py::array] is built from: the item size of
    [py::dtype::of<Scalar>()], the shape, the strides in bytes, the data
    pointer's memory, and the size in bytes of the [CUDAManagedBuffer]
    kept alive as its base. *)
Record ndarray : Type :=
  { nd_itemsize : Z;
    nd_shape : list Z;
    nd_strides : list Z;
    nd_data : memory Scalar;
    nd_base_bytes : Z }.

(** [for (ssize_t i = Depth - 1; i >= 0; --i)
       { size *= shape_rev[i]; strides[i] = stride; stride *= shape_rev[i]; }]
    with [n] iterations left; the state is [(size, stride, strides)]. *)
Fixpoint numpy_layout (n : nat) (shape_rev : list Z) (st : Z * Z * list Z)
  : Z * Z * list Z :=
  match n with
  | O => st
  | S i =>
      let '(size, stride, strides) := st in
      numpy_layout i shape_rev
        (to_size_t (size * nth i shape_rev 0),
         to_size_t (stride * nth i shape_rev 0),
         <[i := stride]> strides)
  end.

(** [CUDAManagedBuffer(bytes)]: a fresh managed allocation; it holds the
    cells that fit into [bytes] bytes, with whatever [init] says in
    them. *)
Definition CUDAManagedBuffer (itemsize : Z) (init : Z -> Scalar) (bytes : Z)
  : memory Scalar :=
  fun j => if decide (0 <= j /\ (j + 1) * itemsize <= bytes)
           then Some (init j) else None.

(** [enoki_to_numpy<Array>(src, eval)]; [Scalar_t] is [scalar_t<Array>].
    The stride array starts out uninitialised (zeros here); the loop
    assigns each of its entries. *)
Definition enoki_to_numpy (Scalar_t : scalar_type) (init : Z -> Scalar)
  (src : array Scalar) (eval : bool) : M ndarray :=
  let shp := shape src in
  let Depth := length shp in
  let shape_rev := rev shp in
  let '(size, stride, strides) :=
    numpy_layout Depth shape_rev (1, sizeof Scalar_t, replicate Depth 0) in
  let buf := CUDAManagedBuffer (sizeof Scalar_t) init stride in
  let byte_strides := strides in
  tell (map_memory stride);;
  let target := Mapped buf stride in
  let strides := (fun s => s / sizeof Scalar_t) <$> strides in
  let strides := rev strides in
  tell (scatter_memory shp strides);;
  target' ← defined (copy_array_scatter 0 0 shp strides src target);
  (if eval then tell cuda_eval else mret tt);;
  mret {| nd_itemsize := sizeof Scalar_t;
          nd_shape := shape_rev;
          nd_strides := byte_strides;
          nd_data := m_cells target';
          nd_base_bytes := stride |}.

End NumPy.

Arguments ndarray : clear implicits.

(** * Properties *)

Section Arithmetic.

Lemma to_uint32_to_size_t z : to_uint32 (to_size_t z) = to_uint32 z.
Proof.
  unfold to_uint32, to_size_t. apply Z.mod_mod_divide.
  exists (2 ^ 32). reflexivity.
Qed.

Lemma to_uint32_small z : 0 <= z < 2 ^ 32 -> to_uint32 z = z.
Proof. unfold to_uint32. apply Z.mod_small. Qed.

Lemma to_uint32_affine i s o :
  to_uint32 (i * to_uint32 s + to_uint32 o) = to_uint32 (o + i * s).
Proof.
  unfold to_uint32.
  rewrite Z.add_mod_idemp_r by lia.
  rewrite <- Z.add_mod_idemp_l by lia.
  rewrite Z.mul_mod_idemp_r by lia.
  rewrite Z.add_mod_idemp_l by lia.
  f_equal. lia.
Qed.

Lemma to_uint32_add_congr a b c :
  to_uint32 a = to_uint32 b -> to_uint32 (a + c) = to_uint32 (b + c).
Proof.
  unfold to_uint32. intros H.
  rewrite <- (Z.add_mod_idemp_l a), <- (Z.add_mod_idemp_l b) by lia.
  now rewrite H.
Qed.

Lemma innermost_index_contract n s o :
  innermost_index n s o = contract_index to_uint32 n s o.
Proof.
  unfold innermost_index, contract_index, fmadd, arange.
  apply list_fmap_ext. intros _ i _. apply to_uint32_affine.
Qed.

Lemma contract_index_congr n s o o' :
  to_uint32 o = to_uint32 o' ->
  contract_index to_uint32 n s o = contract_index to_uint32 n s o'.
Proof.
  intros H. unfold contract_index. apply list_fmap_ext. intros _ i _.
  now apply to_uint32_add_congr.
Qed.

End Arithmetic.

(** ** Loops *)

Section Loops.
Context {St St' : Type}.

Lemma for_loop_ext (f g : Z -> St -> option St) n : forall i s,
  (forall k s', i <= k < i + Z.of_nat n -> f k s' = g k s') ->
  for_loop n i f s = for_loop n i g s.
Proof.
  induction n as [|n IH]; intros i s Hfg; simpl; [done|].
  rewrite Hfg by lia. destruct (g i s) as [s'|]; simpl; [|done].
  apply IH. intros k s'' Hk. apply Hfg. lia.
Qed.

(** Two loops that keep their states related step by step end in related
    states, or fail together. *)
Lemma for_loop_rel (R : Z -> St -> St' -> Prop)
  (f : Z -> St -> option St) (g : Z -> St' -> option St') n : forall i s t,
  (forall k s' t', i <= k < i + Z.of_nat n -> R k s' t' ->
     option_Forall2 (R (k + 1)) (f k s') (g k t')) ->
  R i s t ->
  option_Forall2 (R (i + Z.of_nat n)) (for_loop n i f s) (for_loop n i g t).
Proof.
  induction n as [|n IH]; intros i s t Hstep HR; simpl.
  - constructor. now replace (i + Z.of_nat 0) with i by lia.
  - destruct (Hstep i s t) as [s' t' HR'|]; [lia|done|simpl|simpl; constructor].
    replace (i + Z.of_nat (S n)) with (i + 1 + Z.of_nat n) by lia.
    apply IH; [|done]. intros k s'' t'' Hk. apply Hstep. lia.
Qed.

(** An invariant carried through a loop that succeeds. *)
Lemma for_loop_inv (P : Z -> St -> Prop) (f : Z -> St -> option St) n :
  forall i s s',
  (forall k s1 s2, i <= k < i + Z.of_nat n -> P k s1 -> f k s1 = Some s2 ->
     P (k + 1) s2) ->
  P i s -> for_loop n i f s = Some s' -> P (i + Z.of_nat n) s'.
Proof.
  induction n as [|n IH]; intros i s s' Hstep HP; simpl.
  - intros [= <-]. now replace (i + Z.of_nat 0) with i by lia.
  - destruct (f i s) as [s1|] eqn:Hf; simpl; [|done]. intros Hloop.
    replace (i + Z.of_nat (S n)) with (i + 1 + Z.of_nat n) by lia.
    eapply IH; [| |exact Hloop].
    + intros k s2 s3 Hk. apply Hstep. lia.
    + eapply Hstep; [|exact HP|exact Hf]. lia.
Qed.

End Loops.

(** ** The copies against their closed form *)

Section Refinement.
Context {Scalar : Type}.
Implicit Types (source : mapped_array Scalar) (target : array Scalar).

Lemma gather_contract_congr rest : forall Index o o' shp strides source target,
  to_uint32 o = to_uint32 o' ->
  gather_contract to_uint32 rest Index o shp strides source target =
  gather_contract to_uint32 rest Index o' shp strides source target.
Proof.
  induction rest as [|rest IH]; intros Index o o' shp strides source target Ho;
    simpl.
  - now rewrite (contract_index_congr _ _ o o').
  - apply for_loop_ext. intros k t _.
    destruct (coeff t k) as [c|]; simpl; [|done].
    rewrite (IH _ (o + k * nth Index strides 0) (o' + k * nth Index strides 0));
      [done|]. now apply to_uint32_add_congr.
Qed.

Lemma scatter_contract_congr rest :
  forall Index o o' shp strides (src : array Scalar) (tgt : mapped_array Scalar),
  to_uint32 o = to_uint32 o' ->
  scatter_contract to_uint32 rest Index o shp strides src tgt =
  scatter_contract to_uint32 rest Index o' shp strides src tgt.
Proof.
  induction rest as [|rest IH]; intros Index o o' shp strides src tgt Ho; simpl.
  - now rewrite (contract_index_congr _ _ o o').
  - apply for_loop_ext. intros k t _.
    destruct (coeff src k) as [c|]; simpl; [|done].
    apply IH. now apply to_uint32_add_congr.
Qed.

Lemma copy_array_gather_rec_contract rest :
  forall Index offset shp strides source target,
  copy_array_gather_rec rest Index offset shp strides source target =
  gather_contract to_uint32 rest Index offset shp strides source target.
Proof.
  induction rest as [|rest IH]; intros Index offset shp strides source target;
    simpl.
  - now rewrite innermost_index_contract.
  - set (step := nth Index strides 0). set (n := Z.to_nat (nth Index shp 0)).
    pose proof (for_loop_rel
      (fun i (s : array Scalar * Z) (t : array Scalar) =>
         s.1 = t /\ to_uint32 s.2 = to_uint32 (offset + i * step))
      (fun i '(target, offset) =>
         c ← coeff target i;
         c' ← copy_array_gather_rec rest (S Index) offset
                shp strides source c;
         target' ← set_coeff target i c';
         Some (target', to_size_t (offset + step)))
      (fun i target =>
         c ← coeff target i;
         c' ← gather_contract to_uint32 rest (S Index)
                (offset + i * step) shp strides source c;
         set_coeff target i c')
      n 0 (target, offset) target) as Hrel.
    destruct Hrel as [[t1 o1] t2 [Ht _]|].
    + intros k [t1 o1] t2 _ [Ht Ho]; simpl in *; subst t2.
      destruct (coeff t1 k) as [c|]; simpl; [|constructor].
      rewrite IH, (gather_contract_congr _ _ o1 (offset + k * step)) by done.
      destruct (gather_contract _ _ _ _ _ _ _ _) as [c'|]; simpl;
        [|constructor].
      destruct (set_coeff t1 k c') as [t'|]; simpl; constructor.
      split; [done|]. simpl. rewrite to_uint32_to_size_t.
      replace (offset + (k + 1) * step) with (offset + k * step + step) by lia.
      now apply to_uint32_add_congr.
    + split; [done|]. simpl. f_equal. lia.
    + simpl in *. now subst.
    + done.
Qed.

Lemma copy_array_scatter_rec_contract rest :
  forall Index offset shp strides (src : array Scalar) (tgt : mapped_array Scalar),
  copy_array_scatter_rec rest Index offset shp strides src tgt =
  scatter_contract to_uint32 rest Index offset shp strides src tgt.
Proof.
  induction rest as [|rest IH]; intros Index offset shp strides src tgt; simpl.
  - now rewrite innermost_index_contract.
  - set (step := nth Index strides 0). set (n := Z.to_nat (nth Index shp 0)).
    pose proof (for_loop_rel
      (fun i (s : mapped_array Scalar * Z) (t : mapped_array Scalar) =>
         s.1 = t /\ to_uint32 s.2 = to_uint32 (offset + i * step))
      (fun i '(m, o) =>
         c ← coeff src i;
         m' ← copy_array_scatter_rec rest (S Index) o shp strides c m;
         Some (m', to_size_t (o + step)))
      (fun i m =>
         c ← coeff src i;
         scatter_contract to_uint32 rest (S Index)
           (offset + i * step) shp strides c m)
      n 0 (tgt, offset) tgt) as Hrel.
    destruct Hrel as [[t1 o1] t2 [Ht _]|].
    + intros k [t1 o1] t2 _ [Ht Ho]; simpl in *; subst t2.
      destruct (coeff src k) as [c|]; simpl; [|constructor].
      rewrite IH, (scatter_contract_congr _ _ o1 (offset + k * step)) by done.
      destruct (scatter_contract _ _ _ _ _ _ _ _) as [t'|]; simpl; constructor.
      split; [done|]. simpl. rewrite to_uint32_to_size_t.
      replace (offset + (k + 1) * step) with (offset + k * step + step) by lia.
      now apply to_uint32_add_congr.
    + split; [done|]. simpl. f_equal. lia.
    + simpl in *. now subst.
    + done.
Qed.

End Refinement.

(** ** Flat indices *)

Section FlatIndices.

Lemma seqZ_of_to_nat m n : seqZ m (Z.of_nat (Z.to_nat n)) = seqZ m n.
Proof. unfold seqZ. now rewrite Nat2Z.id. Qed.

Lemma seqZ_snoc k : 0 <= k -> seqZ 0 (k + 1) = seqZ 0 k ++ [k].
Proof.
  intros Hk. rewrite seqZ_app by lia. reflexivity.
Qed.

Lemma elem_of_innermost_index j n s o :
  j ∈ innermost_index n s o <->
  exists i, 0 <= i < to_uint32 n /\ j = to_uint32 (o + i * s).
Proof.
  rewrite innermost_index_contract. unfold contract_index.
  rewrite list_elem_of_fmap. split.
  - intros (i & -> & Hi). apply elem_of_seqZ in Hi. exists i. split; [lia|done].
  - intros (i & Hi & ->). exists i. split; [done|]. apply elem_of_seqZ. lia.
Qed.

(** Every flat index of a traversal is the 32-bit truncation of
    [offset + sum of i_d * strides[d]] at a visited position. *)
Lemma elem_of_flat_indices_rec rest : forall Index offset shp strides j,
  j ∈ flat_indices_rec rest Index offset shp strides ->
  exists idx, length idx = S rest /\ visited idx Index shp
              /\ j = to_uint32 (offset + linear idx Index strides).
Proof.
  induction rest as [|rest IH]; intros Index offset shp strides j; simpl.
  - rewrite elem_of_innermost_index. intros (i & Hi & ->).
    exists [i]. simpl. repeat split; [lia..|]. f_equal. lia.
  - rewrite list_elem_of_bind. intros (i & Hj & Hi).
    apply elem_of_seqZ in Hi. apply IH in Hj as (idx & Hlen & Hvis & ->).
    exists (i :: idx). simpl. rewrite Hlen. split; [done|].
    destruct idx as [|i' idx]; [done|]. split; [split; [lia|done]|].
    f_equal. lia.
Qed.

Lemma flat_indices_rec_visited rest : forall Index offset shp strides idx,
  length idx = S rest -> visited idx Index shp ->
  to_uint32 (offset + linear idx Index strides)
    ∈ flat_indices_rec rest Index offset shp strides.
Proof.
  induction rest as [|rest IH]; intros Index offset shp strides idx Hlen Hvis.
  - destruct idx as [|i [|? ?]]; try done. simpl in *.
    apply elem_of_innermost_index. exists i. split; [done|]. f_equal. lia.
  - destruct idx as [|i [|i' idx]]; try done.
    destruct Hvis as [Hi Hvis]. cbn [flat_indices_rec].
    apply list_elem_of_bind. exists i. split; [|apply elem_of_seqZ; lia].
    replace (offset + linear (i :: i' :: idx) Index strides)
      with (offset + i * nth Index strides 0
            + linear (i' :: idx) (S Index) strides) by (simpl; lia).
    apply IH; [|done]. simpl in *. lia.
Qed.

End FlatIndices.

(** ** What a scatter leaves alone *)

Section Frame.
Context {Scalar : Type}.
Implicit Types (cells : memory Scalar) (tgt : mapped_array Scalar).

Lemma scatter_lanes_frame (xs : list Scalar) : forall index cells cells',
  scatter_lanes cells xs index = Some cells' ->
  (forall j, j ∉ index -> cells' j = cells j)
  /\ (forall j, is_Some (cells' j) <-> is_Some (cells j)).
Proof.
  induction xs as [|x xs IH]; intros [|i index] cells cells'; simpl; try done.
  - intros [= <-]. done.
  - destruct (cells i) as [v|] eqn:Hi; [|done]. intros H.
    apply IH in H as [Hout Hdom]. split.
    + intros j Hj. apply not_elem_of_cons in Hj as [Hne Hj].
      rewrite Hout by done. unfold store. now rewrite decide_False.
    + intros j. rewrite Hdom. unfold store. destruct (decide (j = i)) as [->|].
      * rewrite Hi. split; eauto.
      * done.
Qed.

Lemma scatter_frame tgt (xs : list Scalar) index tgt' :
  scatter tgt xs index = Some tgt' ->
  m_size tgt' = m_size tgt
  /\ (forall j, j ∉ index -> m_cells tgt' j = m_cells tgt j)
  /\ (forall j, is_Some (m_cells tgt' j) <-> is_Some (m_cells tgt j)).
Proof.
  unfold scatter. destruct (scatter_lanes _ _ _) as [cells'|] eqn:H; [|done].
  simpl. intros [= <-]. simpl. split; [done|]. now apply scatter_lanes_frame in H.
Qed.

(** The frame of the closed form, dimension by dimension. *)
Lemma scatter_contract_frame rest :
  forall Index offset shp strides (src : array Scalar) tgt tgt',
  scatter_contract to_uint32 rest Index offset shp strides src tgt = Some tgt' ->
  m_size tgt' = m_size tgt
  /\ (forall j, j ∉ flat_indices_rec rest Index offset shp strides ->
        m_cells tgt' j = m_cells tgt j)
  /\ (forall j, is_Some (m_cells tgt' j) <-> is_Some (m_cells tgt j)).
Proof.
  induction rest as [|rest IH]; intros Index offset shp strides src tgt tgt';
    simpl.
  - destruct src as [xs|cs]; [|done]. rewrite innermost_index_contract.
    apply scatter_frame.
  - intros Hloop.
    set (F := fun i => flat_indices_rec rest (S Index)
                         (offset + i * nth Index strides 0) shp strides).
    set (P := fun k (t : mapped_array Scalar) =>
      0 <= k /\ m_size t = m_size tgt
      /\ (forall j, j ∉ (seqZ 0 k ≫= F) -> m_cells t j = m_cells tgt j)
      /\ (forall j, is_Some (m_cells t j) <-> is_Some (m_cells tgt j))).
    cut (P (0 + Z.of_nat (Z.to_nat (nth Index shp 0))) tgt').
    { intros (_ & Hsize & Hout & Hdom). split; [done|]. split; [|done].
      intros j Hj. apply Hout. now rewrite Z.add_0_l, seqZ_of_to_nat. }
    eapply (for_loop_inv P); [| |exact Hloop].
    + intros k t1 t2 Hk (_ & Hsize & Hout & Hdom).
      destruct (coeff src k) as [c|]; simpl; [|done]. intros Hstep.
      apply IH in Hstep as (Hsize' & Hout' & Hdom').
      split; [lia|]. split; [congruence|]. split.
      * intros j Hj. rewrite seqZ_snoc, bind_app in Hj by lia.
        apply not_elem_of_app in Hj as [Hj1 Hj2].
        simpl in Hj2. rewrite app_nil_r in Hj2.
        rewrite Hout' by done. now apply Hout.
      * intros j. now rewrite Hdom'.
    + repeat split; try done; lia.
Qed.

End Frame.

(** ** Scatter followed by gather *)

Section RoundTrip.
Context {Scalar : Type}.
Implicit Types (cells : memory Scalar) (tgt m : mapped_array Scalar).

Lemma scatter_lanes_NoDup (xs : list Scalar) : forall index cells,
  length xs = length index -> NoDup index ->
  Forall (fun j => is_Some (cells j)) index ->
  exists cells', scatter_lanes cells xs index = Some cells'
    /\ Forall2 (fun j x => cells' j = Some x) index xs.
Proof.
  induction xs as [|x xs IH]; intros [|i index] cells Hlen Hnd Hval;
    simpl in *; try done.
  - eexists; split; [done|constructor].
  - apply NoDup_cons in Hnd as [Hi Hnd].
    apply Forall_cons in Hval as [[v Hv] Hval]. rewrite Hv.
    destruct (IH index (store cells i x)) as (cells' & Hs & Hall);
      [lia|done| |].
    + eapply Forall_impl; [exact Hval|]. intros j Hj. unfold store.
      destruct (decide (j = i)); eauto.
    + exists cells'. split; [done|]. constructor; [|done].
      apply scatter_lanes_frame in Hs as [Hout _]. rewrite Hout by done.
      unfold store. now rewrite decide_True.
Qed.

Lemma has_shape_coeffs rest Index shp (cs : list (array Scalar)) :
  has_shape (S rest) Index shp (StaticArray cs) = true ->
  Z.of_nat (length cs) = nth Index shp 0
  /\ forall k c, cs !! k = Some c -> has_shape rest (S Index) shp c = true.
Proof.
  simpl. intros H. apply andb_prop in H as [Hlen Hall].
  apply bool_decide_eq_true in Hlen. split; [done|]. intros k c Hk.
  rewrite forallb_forall in Hall. apply Hall, list_elem_of_In.
  eapply list_elem_of_lookup_2, Hk.
Qed.

Lemma has_static_shape_coeffs rest Index shp (cs : list (array Scalar)) :
  has_static_shape (S rest) Index shp (StaticArray cs) = true ->
  Z.of_nat (length cs) = nth Index shp 0
  /\ forall k c, cs !! k = Some c ->
       has_static_shape rest (S Index) shp c = true.
Proof.
  simpl. intros H. apply andb_prop in H as [Hlen Hall].
  apply bool_decide_eq_true in Hlen. split; [done|]. intros k c Hk.
  rewrite forallb_forall in Hall. apply Hall, list_elem_of_In.
  eapply list_elem_of_lookup_2, Hk.
Qed.

Lemma seqZ_bind_cons (F : Z -> list Z) i k :
  seqZ i (Z.of_nat (S k)) ≫= F = F i ++ (seqZ (i + 1) (Z.of_nat k) ≫= F).
Proof.
  rewrite seqZ_cons by lia. rewrite Nat2Z.inj_succ, Z.pred_succ. reflexivity.
Qed.

(** The gather loop of one static level, once every component can be
    gathered: the components are replaced one by one. *)
Lemma gather_loop_fills (g : Z -> array Scalar -> option (array Scalar))
  (cs : list (array Scalar)) (ok : array Scalar -> Prop) :
  (forall i c t0, cs !! Z.to_nat i = Some c -> 0 <= i -> ok t0 ->
     g i t0 = Some c) ->
  forall k i0 (l : list (array Scalar)),
  0 <= i0 -> i0 + Z.of_nat k = Z.of_nat (length cs) ->
  length l = length cs ->
  (forall b, (b < Z.to_nat i0)%nat -> l !! b = cs !! b) ->
  (forall b t0, (Z.to_nat i0 <= b)%nat -> l !! b = Some t0 -> ok t0) ->
  for_loop k i0
    (fun i target => c ← coeff target i; c' ← g i c; set_coeff target i c')
    (StaticArray l) = Some (StaticArray cs).
Proof.
  intros Hg. induction k as [|k IH]; intros i0 l Hi0 Hk Hlen Hdone Htodo; simpl.
  - f_equal. f_equal. apply list_eq. intros b.
    destruct (decide (b < Z.to_nat i0)%nat); [now apply Hdone|].
    rewrite !lookup_ge_None_2; [done|lia..].
  - rewrite decide_True by done.
    destruct (lookup_lt_is_Some_2 l (Z.to_nat i0)) as [t0 Ht0]; [lia|].
    destruct (lookup_lt_is_Some_2 cs (Z.to_nat i0)) as [c Hc]; [lia|].
    rewrite Ht0. simpl. rewrite (Hg i0 c t0) by eauto. simpl.
    rewrite decide_True by lia. simpl. apply IH.
    + lia.
    + lia.
    + now rewrite length_insert.
    + intros b Hb. destruct (decide (b = Z.to_nat i0)) as [->|Hne].
      * rewrite list_lookup_insert_eq by lia. done.
      * rewrite list_lookup_insert_ne by done. apply Hdone. lia.
    + intros b t1 Hb. rewrite list_lookup_insert_ne by lia.
      apply Htodo. lia.
Qed.

(** The scatter loop of one static level: it succeeds, leaves the cells
    outside its flat indices alone, and what it stored for component [i]
    is what a gather of component [i] reads back, from any memory that
    agrees with the final one on the flat indices of that component. *)
Lemma scatter_loop_stores
  (s : Z -> array Scalar -> mapped_array Scalar -> option (mapped_array Scalar))
  (g : Z -> mapped_array Scalar -> array Scalar -> option (array Scalar))
  (F : Z -> list Z) (cs : list (array Scalar)) (okc ok : array Scalar -> Prop) :
  (forall i c tgt tgt', s i c tgt = Some tgt' ->
     (forall j, j ∉ F i -> m_cells tgt' j = m_cells tgt j)
     /\ (forall j, is_Some (m_cells tgt' j) <-> is_Some (m_cells tgt j))) ->
  (forall i c tgt, okc c -> NoDup (F i) ->
     Forall (fun j => is_Some (m_cells tgt j)) (F i) ->
     exists tgt', s i c tgt = Some tgt'
       /\ forall m t0, (forall j, j ∈ F i -> m_cells m j = m_cells tgt' j) ->
            ok t0 -> g i m t0 = Some c) ->
  (forall k c, cs !! k = Some c -> okc c) ->
  forall k i0 tgt,
  0 <= i0 -> i0 + Z.of_nat k = Z.of_nat (length cs) ->
  NoDup (seqZ i0 (Z.of_nat k) ≫= F) ->
  Forall (fun j => is_Some (m_cells tgt j)) (seqZ i0 (Z.of_nat k) ≫= F) ->
  exists tgt',
    for_loop k i0
      (fun i target => c ← coeff (StaticArray cs) i; s i c target) tgt
    = Some tgt'
    /\ (forall j, j ∉ (seqZ i0 (Z.of_nat k) ≫= F) ->
          m_cells tgt' j = m_cells tgt j)
    /\ (forall j, is_Some (m_cells tgt' j) <-> is_Some (m_cells tgt j))
    /\ (forall i c, i0 <= i -> cs !! Z.to_nat i = Some c ->
          forall m t0, (forall j, j ∈ F i -> m_cells m j = m_cells tgt' j) ->
            ok t0 -> g i m t0 = Some c).
Proof.
  intros Hframe Hstore Hcs.
  induction k as [|k IH]; intros i0 tgt Hi0 Hk Hnd Hval.
  - exists tgt. simpl. repeat split; try done.
    intros i c Hi Hc. apply lookup_lt_Some in Hc. lia.
  - rewrite seqZ_bind_cons in Hnd, Hval.
    apply NoDup_app in Hnd as (Hnd0 & Hdisj & Hnd').
    apply Forall_app in Hval as [Hval0 Hval'].
    destruct (lookup_lt_is_Some_2 cs (Z.to_nat i0)) as [c0 Hc0]; [lia|].
    destruct (Hstore i0 c0 tgt) as (t1 & Hs1 & Hg1); [by eauto|done|done|].
    destruct (Hframe _ _ _ _ Hs1) as [Hout1 Hdom1].
    destruct (IH (i0 + 1) t1) as (tgt' & Hloop & Hout & Hdom & Hg);
      [lia|lia|done| |].
    { eapply Forall_impl; [exact Hval'|]. intros j Hj. now apply Hdom1. }
    exists tgt'. split; [|split; [|split]].
    + simpl. rewrite decide_True by done. rewrite Hc0. simpl.
      rewrite Hs1. simpl. exact Hloop.
    + intros j Hj. rewrite seqZ_bind_cons in Hj.
      apply not_elem_of_app in Hj as [Hj0 Hj'].
      rewrite Hout by done. now apply Hout1.
    + intros j. now rewrite Hdom, Hdom1.
    + intros i c Hi Hc m t0 Hm Hok.
      destruct (decide (i = i0)) as [->|Hne].
      * assert (c = c0) as -> by congruence.
        apply Hg1; [|done]. intros j Hj. rewrite Hm by done.
        apply Hout. now apply Hdisj.
      * apply Hg; [lia|done|done|done].
Qed.

(** Scatter then gather, on the closed form. *)
Lemma roundtrip_contract rest :
  forall Index offset shp strides (A : array Scalar) tgt,
  has_shape rest Index shp A = true ->
  NoDup (flat_indices_rec rest Index offset shp strides) ->
  Forall (fun j => is_Some (m_cells tgt j))
    (flat_indices_rec rest Index offset shp strides) ->
  exists tgt',
    scatter_contract to_uint32 rest Index offset shp strides A tgt = Some tgt'
    /\ forall m t0,
         (forall j, j ∈ flat_indices_rec rest Index offset shp strides ->
            m_cells m j = m_cells tgt' j) ->
         has_static_shape rest Index shp t0 = true ->
         gather_contract to_uint32 rest Index offset shp strides m t0 = Some A.
Proof.
  induction rest as [|rest IH]; intros Index offset shp strides A tgt HA Hnd Hval.
  - destruct A as [xs|cs]; [|done]. simpl in *.
    apply bool_decide_eq_true in HA as [Hlen Hsmall].
    rewrite <- innermost_index_contract.
    set (index := innermost_index (nth Index shp 0) (nth Index strides 0) offset)
      in *.
    assert (length xs = length index) as Hlen'.
    { unfold index, innermost_index, fmadd, arange.
      rewrite length_fmap, length_seqZ, to_uint32_small by lia. lia. }
    destruct (scatter_lanes_NoDup xs index (m_cells tgt)) as (cells' & Hs & Hall);
      [done..|].
    exists (Mapped cells' (m_size tgt)). unfold scatter. rewrite Hs.
    split; [done|]. intros m [ys|] Hm Ht0; [|done]. simpl in Hm.
    unfold gather. erewrite (mapM_Some_2 _ _ xs); [done|].
    apply Forall2_same_length_lookup_2; [by apply Forall2_length in Hall|].
    intros k j x Hj Hx. rewrite Hm by (eapply list_elem_of_lookup_2, Hj).
    eapply Forall2_lookup_lr in Hall; eauto.
  - destruct A as [xs|cs]; [done|].
    apply has_shape_coeffs in HA as [Hlen Hcs]. cbn [flat_indices_rec] in *.
    rewrite <- seqZ_of_to_nat in Hnd, Hval.
    set (F := fun i => flat_indices_rec rest (S Index)
                         (offset + i * nth Index strides 0) shp strides) in *.
    assert (Hn : 0 + Z.of_nat (Z.to_nat (nth Index shp 0))
                 = Z.of_nat (length cs)) by lia.
    destruct (scatter_loop_stores
      (fun i c t => scatter_contract to_uint32 rest (S Index)
                      (offset + i * nth Index strides 0) shp strides c t)
      (fun i m t0 => gather_contract to_uint32 rest (S Index)
                       (offset + i * nth Index strides 0) shp strides m t0)
      F cs (fun c => has_shape rest (S Index) shp c = true)
      (fun t0 => has_static_shape rest (S Index) shp t0 = true))
      with (k := Z.to_nat (nth Index shp 0)) (i0 := 0) (tgt := tgt)
      as (tgt' & Hloop & _ & _ & Hg); try done.
    { intros i c t t' Hs. now apply scatter_contract_frame in Hs as (_ & ? & ?). }
    { intros i c t Hc Hnd' Hval'. now apply IH. }
    exists tgt'. split; [exact Hloop|].
    intros m [ys|ts] Hm Ht0; [done|].
    apply has_static_shape_coeffs in Ht0 as [Hlen' Hts].
    cbn [gather_contract].
    apply (gather_loop_fills _ cs
             (fun t0 => has_static_shape rest (S Index) shp t0 = true)).
    + intros i c t0 Hc Hi Hok. apply Hg; [done|done| |done].
      intros j Hj. apply Hm. apply list_elem_of_bind. exists i.
      split; [done|]. apply elem_of_seqZ. apply lookup_lt_Some in Hc. lia.
    + done.
    + lia.
    + lia.
    + intros b Hb. simpl in Hb. lia.
    + intros b t0 _ Hb. eapply Hts, Hb.
Qed.

End RoundTrip.

(** * The claims *)

(** ** Truncation of the innermost index vector *)

Lemma nth_insert_same (l : list Z) (i : nat) (v : Z) :
  (i < length l)%nat -> nth i (<[i := v]> l) 0 = v.
Proof. intros H. now rewrite nth_lookup, list_lookup_insert_eq. Qed.

Lemma innermost_index_wrap_offset n s o k :
  innermost_index n s (o + k * 2 ^ 32) = innermost_index n s o.
Proof.
  unfold innermost_index. f_equal. unfold to_uint32. apply Z_mod_plus_full.
Qed.

Lemma innermost_index_wrap_stride n s o k :
  innermost_index n (s + k * 2 ^ 32) o = innermost_index n s o.
Proof.
  unfold innermost_index. f_equal. unfold to_uint32. apply Z_mod_plus_full.
Qed.

Lemma copy_array_gather_last {Scalar} Index offset shp strides
  (source : mapped_array Scalar) (target : array Scalar) :
  length shp = S Index ->
  copy_array_gather Index offset shp strides source target
  = match target with
    | DynArray _ =>
        DynArray <$> gather source
          (innermost_index (nth Index shp 0) (nth Index strides 0) offset)
    | StaticArray _ => None
    end.
Proof.
  intros Hlen. unfold copy_array_gather. rewrite decide_True by lia.
  now replace (length shp - 1 - Index)%nat with 0%nat by lia.
Qed.

Lemma copy_array_scatter_last {Scalar} Index offset shp strides
  (src : array Scalar) (tgt : mapped_array Scalar) :
  length shp = S Index ->
  copy_array_scatter Index offset shp strides src tgt
  = match src with
    | DynArray xs =>
        scatter tgt xs
          (innermost_index (nth Index shp 0) (nth Index strides 0) offset)
    | StaticArray _ => None
    end.
Proof.
  intros Hlen. unfold copy_array_scatter. rewrite decide_True by lia.
  now replace (length shp - 1 - Index)%nat with 0%nat by lia.
Qed.

(** C9: at the last dimension ([Index = Dim - 1]) both copies address
    memory through one index vector computed in 32-bit unsigned
    arithmetic: it has [shape[last] mod 2^32] lanes and lane [i] is
    [(offset + i * stride[last]) mod 2^32].  An offset or an innermost
    stride raised by any multiple of [2^32] gives the same copy: values at
    or above [2^32] wrap, nothing rejects them. *)
Theorem innermost_index_uint32 {Scalar} (Index : nat) (offset : Z)
  (shp strides : list Z) (source tgt : mapped_array Scalar)
  (target src : array Scalar) :
  length shp = S Index ->
  let index := (fun i => (offset + i * nth Index strides 0) mod 2 ^ 32)
                 <$> seqZ 0 (nth Index shp 0 mod 2 ^ 32) in
  copy_array_gather Index offset shp strides source target
    = match target with
      | DynArray _ => DynArray <$> gather source index
      | StaticArray _ => None
      end
  /\ copy_array_scatter Index offset shp strides src tgt
     = match src with
       | DynArray xs => scatter tgt xs index
       | StaticArray _ => None
       end
  /\ (forall k,
        copy_array_gather Index (offset + k * 2 ^ 32) shp strides source target
        = copy_array_gather Index offset shp strides source target
        /\ copy_array_scatter Index (offset + k * 2 ^ 32) shp strides src tgt
           = copy_array_scatter Index offset shp strides src tgt)
  /\ (forall k, (Index < length strides)%nat ->
        let strides' := <[Index := nth Index strides 0 + k * 2 ^ 32]> strides in
        copy_array_gather Index offset shp strides' source target
        = copy_array_gather Index offset shp strides source target
        /\ copy_array_scatter Index offset shp strides' src tgt
           = copy_array_scatter Index offset shp strides src tgt).
Proof.
  intros Hlen index.
  assert (Hidx : innermost_index (nth Index shp 0) (nth Index strides 0) offset
                 = index).
  { now rewrite innermost_index_contract. }
  split; [|split; [|split]].
  - now rewrite copy_array_gather_last, Hidx.
  - now rewrite copy_array_scatter_last, Hidx.
  - intros k. rewrite !copy_array_gather_last, !copy_array_scatter_last by done.
    now rewrite innermost_index_wrap_offset.
  - intros k Hk strides'.
    rewrite !copy_array_gather_last, !copy_array_scatter_last by done.
    unfold strides'. rewrite nth_insert_same by done.
    now rewrite innermost_index_wrap_stride.
Qed.

Lemma innermost_index_uint32_witness :
  copy_array_gather 0 (2 ^ 32 + 1) [2] [2 ^ 32 + 3]
    (Mapped (mem_of_list [10; 11; 12; 13; 14]) 5) (DynArray [])
  = Some (DynArray [11; 14]).
Proof.
  destruct (innermost_index_uint32 0 (2 ^ 32 + 1) [2] [2 ^ 32 + 3]
              (Mapped (mem_of_list [10; 11; 12; 13; 14]) 5)
              (Mapped (mem_of_list [10; 11; 12; 13; 14]) 5)
              (DynArray []) (DynArray []) eq_refl) as [-> _].
  vm_compute. reflexivity.
Defined.

(** ** The recursion, dimension by dimension *)

Lemma copy_array_gather_contract {Scalar} Index offset shp strides
  (source : mapped_array Scalar) (target : array Scalar) :
  (Index < length shp)%nat ->
  copy_array_gather Index offset shp strides source target
  = gather_contract to_uint32 (length shp - 1 - Index) Index offset shp strides
      source target.
Proof.
  intros H. unfold copy_array_gather. rewrite decide_True by done.
  apply copy_array_gather_rec_contract.
Qed.

Lemma copy_array_scatter_contract {Scalar} Index offset shp strides
  (src : array Scalar) (tgt : mapped_array Scalar) :
  (Index < length shp)%nat ->
  copy_array_scatter Index offset shp strides src tgt
  = scatter_contract to_uint32 (length shp - 1 - Index) Index offset shp strides
      src tgt.
Proof.
  intros H. unfold copy_array_scatter. rewrite decide_True by done.
  apply copy_array_scatter_rec_contract.
Qed.

(** C3, as stated, fails: over a source of [2^32 + 1] cells, with shape
    (2,1) and strides (2^32, 1), the contract read over unbounded integers
    gathers cell [2^32] for the second component, while the copy gathers
    cell 0 again. *)
Lemma gather_contract_unbounded_differs :
  let target := StaticArray [DynArray []; DynArray []] in
  copy_array_gather 0 0 [2; 1] [2 ^ 32; 1] source_over_4G target
    = Some (StaticArray [DynArray [7]; DynArray [7]])
  /\ gather_contract id 1 0 0 [2; 1] [2 ^ 32; 1] source_over_4G target
     = Some (StaticArray [DynArray [7]; DynArray [9]])
  /\ copy_array_gather 0 0 [2; 1] [2 ^ 32; 1] source_over_4G target
     <> gather_contract id 1 0 0 [2; 1] [2 ^ 32; 1] source_over_4G target.
Proof.
  assert (H1 : copy_array_gather 0 0 [2; 1] [2 ^ 32; 1] source_over_4G
                 (StaticArray [DynArray []; DynArray []])
               = Some (StaticArray [DynArray [7]; DynArray [7]]))
    by (vm_compute; reflexivity).
  assert (H2 : gather_contract id 1 0 0 [2; 1] [2 ^ 32; 1] source_over_4G
                 (StaticArray [DynArray []; DynArray []])
               = Some (StaticArray [DynArray [7]; DynArray [9]]))
    by (vm_compute; reflexivity).
  intros target. subst target. split; [exact H1|]. split; [exact H2|].
  rewrite H1, H2. discriminate.
Qed.

(** C3, amended: at the last dimension the copy is a single vector gather
    whose flat source indices are [(offset + i * stride[d]) mod 2^32] for
    [i] in [0 .. shape[d] mod 2^32), written into the depth-1 slice;
    at any other dimension it is, for each [i] in [0 .. shape[d]), the
    recursion into dimension [d + 1] with [offset + i * stride[d]] on the
    [i]-th component of the current level.  The scatter is the mirror
    image, with the array as the source and the memory as the target. *)
Theorem copy_array_recursion {Scalar} (Index : nat) (offset : Z)
  (shp strides : list Z) (source tgt : mapped_array Scalar)
  (target src : array Scalar) :
  let extent := nth Index shp 0 in
  let stride := nth Index strides 0 in
  let index := (fun i => to_uint32 (offset + i * stride))
                 <$> seqZ 0 (to_uint32 extent) in
  (length shp = S Index ->
     copy_array_gather Index offset shp strides source target
       = match target with
         | DynArray _ => DynArray <$> gather source index
         | StaticArray _ => None
         end
     /\ copy_array_scatter Index offset shp strides src tgt
        = match src with
          | DynArray xs => scatter tgt xs index
          | StaticArray _ => None
          end)
  /\ ((S Index < length shp)%nat ->
     copy_array_gather Index offset shp strides source target
       = for_loop (Z.to_nat extent) 0
           (fun i target =>
              c ← coeff target i;
              c' ← copy_array_gather (S Index) (offset + i * stride)
                     shp strides source c;
              set_coeff target i c')
           target
     /\ copy_array_scatter Index offset shp strides src tgt
        = for_loop (Z.to_nat extent) 0
            (fun i tgt =>
               c ← coeff src i;
               copy_array_scatter (S Index) (offset + i * stride)
                 shp strides c tgt)
            tgt).
Proof.
  intros extent stride index. split.
  - intros Hlen.
    rewrite copy_array_gather_last, copy_array_scatter_last by done.
    now rewrite innermost_index_contract.
  - intros Hlen.
    rewrite copy_array_gather_contract, copy_array_scatter_contract by lia.
    replace (length shp - 1 - Index)%nat
      with (S (length shp - 1 - S Index)) by lia.
    split; simpl; apply for_loop_ext; intros k t _.
    + destruct (coeff t k) as [c|]; simpl; [|done].
      now rewrite copy_array_gather_contract by lia.
    + destruct (coeff src k) as [c|]; simpl; [|done].
      now rewrite copy_array_scatter_contract by lia.
Qed.

Lemma copy_array_recursion_witness :
  copy_array_gather 0 0 [2; 3] [1; 2]
    (Mapped (mem_of_list [1; 4; 2; 5; 3; 6]) 6)
    (StaticArray [DynArray []; DynArray []])
  = Some array_2x3
  /\ copy_array_gather 1 1 [2; 3] [1; 2]
       (Mapped (mem_of_list [1; 4; 2; 5; 3; 6]) 6) (DynArray [])
     = Some (DynArray [4; 5; 6]).
Proof.
  split.
  - destruct (copy_array_recursion 0 0 [2; 3] [1; 2]
                (Mapped (mem_of_list [1; 4; 2; 5; 3; 6]) 6)
                (Mapped (mem_of_list [1; 4; 2; 5; 3; 6]) 6)
                (StaticArray [DynArray []; DynArray []]) array_2x3)
      as [_ H].
    destruct H as [-> _]; [simpl; lia|]. vm_compute. reflexivity.
  - destruct (copy_array_recursion 1 1 [2; 3] [1; 2]
                (Mapped (mem_of_list [1; 4; 2; 5; 3; 6]) 6)
                (Mapped (mem_of_list [1; 4; 2; 5; 3; 6]) 6)
                (DynArray []) (DynArray [1; 2; 3]))
      as [H _].
    destruct H as [-> _]; [reflexivity|]. vm_compute. reflexivity.
Defined.

(** ** The frame of a scatter *)

(** C5, as stated, fails: a depth-1 scatter of two elements with stride
    [2^32 + 1] into [2^32 + 2] zeroed cells writes cells 0 and 1.  Cell 1
    is not of the form [0 + i * (2^32 + 1)], and cell [2^32 + 1], which
    is, keeps its old content. *)
Lemma scatter_writes_outside_unbounded_indices :
  exists target',
    copy_array_scatter 0 0 [2] [2 ^ 32 + 1] (DynArray [5; 6]) target_over_4G
      = Some target'
    /\ m_cells target_over_4G 1 = Some 0
    /\ m_cells target' 1 = Some 6
    /\ (forall i, 1 <> 0 + i * (2 ^ 32 + 1))
    /\ m_cells target' (2 ^ 32 + 1) = m_cells target_over_4G (2 ^ 32 + 1).
Proof.
  assert (H : (fun t => (m_cells t 1, m_cells t (2 ^ 32 + 1)))
                <$> copy_array_scatter 0 0 [2] [2 ^ 32 + 1] (DynArray [5; 6])
                      target_over_4G
              = Some (Some 6, Some 0)) by (vm_compute; reflexivity).
  destruct (copy_array_scatter _ _ _ _ _ _) as [target'|]; [|discriminate].
  injection H as H1 H2. exists target'.
  split; [reflexivity|]. split; [vm_compute; reflexivity|].
  split; [exact H1|]. split; [lia|]. rewrite H2. vm_compute. reflexivity.
Qed.

(** C5, amended: a scatter that returns has left the mapped element count
    and the extent of the allocation as they were, and every cell whose
    content differs afterwards has a flat index of the form
    [(offset + sum of i_d * strides[d]) mod 2^32] for a position [i_d]
    within the shape (the innermost [i_d] below [shape[last] mod 2^32]). *)
Theorem copy_array_scatter_frame {Scalar} (Index : nat) (offset : Z)
  (shp strides : list Z) (source : array Scalar)
  (target target' : mapped_array Scalar) :
  copy_array_scatter Index offset shp strides source target = Some target' ->
  m_size target' = m_size target
  /\ forall j,
       (is_Some (m_cells target' j) <-> is_Some (m_cells target j))
       /\ (m_cells target' j <> m_cells target j ->
           exists idx,
             length idx = (length shp - Index)%nat
             /\ visited idx Index shp
             /\ j = to_uint32 (offset + linear idx Index strides)).
Proof.
  unfold copy_array_scatter. destruct (decide (Index < length shp)%nat); [|done].
  rewrite copy_array_scatter_rec_contract. intros H.
  apply scatter_contract_frame in H as (Hsize & Hout & Hdom).
  split; [done|]. intros j. split; [done|]. intros Hj.
  destruct (decide
    (j ∈ flat_indices_rec (length shp - 1 - Index) Index offset shp strides))
    as [Hin|Hnin]; [|now apply Hout in Hnin].
  apply elem_of_flat_indices_rec in Hin as (idx & Hlen & Hvis & ->).
  exists idx. split; [lia|done].
Qed.

Lemma copy_array_scatter_frame_witness :
  exists target',
    copy_array_scatter 0 0 [2; 3] [1; 2] array_2x3
      (Mapped (mem_of_list [0; 0; 0; 0; 0; 0; 9; 9]) 6) = Some target'
    /\ m_size target' = 6
    /\ is_Some (m_cells target' 7)
    /\ ~ is_Some (m_cells target' 8).
Proof.
  assert (H : is_Some (copy_array_scatter 0 0 [2; 3] [1; 2] array_2x3
                         (Mapped (mem_of_list [0; 0; 0; 0; 0; 0; 9; 9]) 6))).
  { apply (bool_decide_unpack _). vm_compute. exact I. }
  destruct H as [target' H]. exists target'. split; [exact H|].
  destruct (copy_array_scatter_frame 0 0 [2; 3] [1; 2] array_2x3
              (Mapped (mem_of_list [0; 0; 0; 0; 0; 0; 9; 9]) 6) target' H)
    as [Hsize Hcells].
  split; [exact Hsize|]. split.
  - apply (Hcells 7). vm_compute. eauto.
  - intros H8. apply (Hcells 8) in H8. vm_compute in H8.
    now destruct H8.
Defined.

(** ** Scatter followed by gather *)

(** C1, as stated, fails: two elements scattered with stride [2^32] into
    an allocation of [2^32 + 1] cells both land in cell 0 (the indices 0
    and [2^32] are distinct and inside the allocation, but they are
    truncated to 32 bits), and the gather with the same shape and strides
    reads the second element twice. *)
Lemma scatter_gather_loses_element :
  exists target',
    copy_array_scatter 0 0 [2] [2 ^ 32] (DynArray [1; 2])
      (allocation (2 ^ 32 + 1) (fun _ => 0)) = Some target'
    /\ copy_array_gather 0 0 [2] [2 ^ 32] target' (DynArray [])
       = Some (DynArray [2; 2])
    /\ copy_array_gather 0 0 [2] [2 ^ 32] target' (DynArray [])
       <> Some (DynArray [1; 2]).
Proof.
  assert (H : (copy_array_scatter 0 0 [2] [2 ^ 32] (DynArray [1; 2])
                 (allocation (2 ^ 32 + 1) (fun _ => 0))
               ≫= fun target' =>
                 Some (copy_array_gather 0 0 [2] [2 ^ 32] target'
                         (DynArray [])))
              = Some (Some (DynArray [2; 2]))) by (vm_compute; reflexivity).
  destruct (copy_array_scatter _ _ _ _ _ _) as [target'|]; [|discriminate].
  simpl in H. injection H as H. exists target'.
  split; [reflexivity|]. split; [exact H|]. rewrite H. discriminate.
Qed.

(** C1, amended: let the array have the given shape, with an innermost
    extent below [2^32], and let the flat indices
    [(offset + sum of i_d * strides[d]) mod 2^32] of its positions be
    pairwise distinct and inside the allocation.  Then the scatter
    returns, and the gather from the memory it leaves, with the same
    offset, shape and strides and into any target with the same static
    extents, returns the original array. *)
Theorem scatter_gather_roundtrip {Scalar} (offset : Z) (shp strides : list Z)
  (A target0 : array Scalar) (target : mapped_array Scalar) :
  (0 < length shp)%nat ->
  has_shape (length shp - 1) 0 shp A = true ->
  has_static_shape (length shp - 1) 0 shp target0 = true ->
  NoDup (flat_indices offset shp strides) ->
  Forall (fun j => is_Some (m_cells target j))
    (flat_indices offset shp strides) ->
  exists target',
    copy_array_scatter 0 offset shp strides A target = Some target'
    /\ copy_array_gather 0 offset shp strides target' target0 = Some A.
Proof.
  intros Hdim HA Ht0 Hnd Hval.
  rewrite copy_array_scatter_contract by done.
  replace (length shp - 1 - 0)%nat with (length shp - 1)%nat by lia.
  destruct (roundtrip_contract (length shp - 1) 0 offset shp strides A target)
    as (target' & Hs & Hg); [done..|].
  exists target'. split; [done|].
  rewrite copy_array_gather_contract by done.
  replace (length shp - 1 - 0)%nat with (length shp - 1)%nat by lia.
  now apply Hg.
Qed.

Lemma scatter_gather_roundtrip_witness :
  exists target',
    copy_array_scatter 0 0 [2; 3] [1; 2] array_2x3
      (allocation 6 (fun _ => 0)) = Some target'
    /\ copy_array_gather 0 0 [2; 3] [1; 2] target'
         (StaticArray [DynArray []; DynArray []]) = Some array_2x3.
Proof.
  apply (scatter_gather_roundtrip 0 [2; 3] [1; 2] array_2x3
           (StaticArray [DynArray []; DynArray []])
           (allocation 6 (fun _ => 0))).
  - simpl. lia.
  - reflexivity.
  - reflexivity.
  - apply (bool_decide_unpack _). vm_compute. exact I.
  - apply (bool_decide_unpack _). vm_compute. exact I.
Defined.

(** ** The dimension order of the two conversions *)

Section Conversions.
Context {Scalar : Type}.

Lemma contiguous_strides_unit_last shp :
  shp <> [] -> exists l, contiguous_strides shp = l ++ [1].
Proof.
  induction shp as [|x [|y shp] IH]; intros Hne; [done|..].
  - now exists [].
  - destruct IH as [l Hl]; [done|]. cbn [contiguous_strides] in *.
    rewrite Hl. eexists (_ :: l). reflexivity.
Qed.

Lemma shape_nonempty (a : array Scalar) : shape a <> [].
Proof. now destruct a. Qed.

(** What [torch_to_enoki] does once the tensor has passed its checks. *)
Lemma torch_to_enoki_accepted Scalar_t static (src : tensor Scalar) dt :
  contains_Tensor (t_type_name src) = true ->
  torch_dtype Scalar_t = Ok dt ->
  length (t_shape src) = S (length static) ->
  t_dtype src = dt ->
  Forall (fun x => 0 <= x < 2 ^ 64) (t_shape src) ->
  length (t_stride src) = S (length static) ->
  Forall (fun x => 0 <= x < 2 ^ 64) (t_stride src) ->
  let shp := rev (t_shape src) in
  let strides := rev (t_stride src) in
  let size := element_count shp in
  torch_to_enoki Scalar_t static src
  = ([map_memory size; gather_memory shp strides],
     match copy_array_gather 0 0 shp strides (Mapped (t_storage src) size)
             (default_array static) with
     | Some result => Ok result
     | None => Undefined
     end).
Proof.
  intros Hname Hdt Hrank Hdtype Hshape Hlen Hstride shp strides size.
  unfold torch_to_enoki. rewrite Hname, Hdt. cbn.
  rewrite bool_decide_eq_false_2 by (intros H; now apply H).
  rewrite bool_decide_eq_true_2 by done. cbn.
  unfold cast_size_t_array. rewrite !decide_True by done. cbn.
  fold shp strides size.
  now destruct (copy_array_gather _ _ _ _ _ _).
Qed.

(** Whatever the tensor, the conversion either stops before touching
    memory or maps the pointer and gathers once, with both arrays of the
    descriptor reversed. *)
Lemma torch_to_enoki_log Scalar_t static (src : tensor Scalar) :
  let shp := rev (t_shape src) in
  let strides := rev (t_stride src) in
  (torch_to_enoki Scalar_t static src).1 = []
  \/ (torch_to_enoki Scalar_t static src).1
     = [map_memory (element_count shp); gather_memory shp strides].
Proof.
  intros shp strides. unfold torch_to_enoki.
  destruct (contains_Tensor _); cbn; [|now left].
  destruct (torch_dtype Scalar_t) as [dt| |]; cbn; [|now left..].
  destruct (_ || _); cbn; [now left|].
  unfold cast_size_t_array.
  destruct (decide (_ /\ Forall _ (t_shape src))); cbn; [|now left].
  destruct (decide (_ /\ Forall _ (t_stride src))); cbn; [|now left].
  right. now destruct (copy_array_gather _ _ _ _ _ _).
Qed.

(** What [enoki_to_torch] returns, when it returns. *)
Lemma enoki_to_torch_Ok Scalar_t init (src : array Scalar) eval log t :
  enoki_to_torch Scalar_t init src eval = (log, Ok t) ->
  let shp := shape src in
  let strides := rev (contiguous_strides (rev shp)) in
  let size := element_count shp in
  exists dt target',
    torch_dtype Scalar_t = Ok dt
    /\ copy_array_scatter 0 0 shp strides src
         (Mapped (t_storage (torch_empty init (rev shp) dt)) size)
       = Some target'
    /\ log = [map_memory size; scatter_memory shp strides]
             ++ (if eval then [cuda_eval] else [])
    /\ t = {| t_type_name := "Tensor";
              t_shape := rev shp;
              t_dtype := dt;
              t_stride := contiguous_strides (rev shp);
              t_storage := m_cells target' |}.
Proof.
  unfold enoki_to_torch.
  destruct (torch_dtype Scalar_t) as [dt| |]; cbn; [|done..].
  unfold cast_size_t_array. destruct (decide _); cbn; [|done].
  destruct (copy_array_scatter _ _ _ _ _ _) as [target'|] eqn:Hs; cbn; [|done].
  destruct eval; cbn; intros [= <- <-]; exists dt, target'; done.
Qed.

End Conversions.

(** C2, as stated, fails: for the array of shape (2,3) the stride array
    handed to the scatter is (1, 2).  Its last index carries the largest
    stride, not the smallest: the fastest-varying dimension of the
    external tensor sits at index 0.  Element (row 0, col 2) therefore
    lies at offset [0 * 1 + 2 * 2 = 4], and offset [0 * 3 + 2 = 2], where
    a last-index-fastest layout would put it, holds element (row 0,
    col 1). *)
Lemma last_index_is_not_fastest_varying :
  exists t,
    enoki_to_torch scalar_float (fun _ => 0) array_2x3 true
      = ([map_memory 6; scatter_memory [2; 3] [1; 2]; cuda_eval], Ok t)
    /\ ~ fastest_varying_last [1; 2]
    /\ t_storage t 4 = element [0; 2] array_2x3
    /\ t_storage t 2 = element [0; 1] array_2x3
    /\ t_storage t 2 <> element [0; 2] array_2x3.
Proof.
  assert (H : let r := enoki_to_torch scalar_float (fun _ => 0) array_2x3 true
              in (r.1, match r.2 with
                       | Ok t => Some (t_storage t 4, t_storage t 2)
                       | _ => None
                       end)
                 = ([map_memory 6; scatter_memory [2; 3] [1; 2]; cuda_eval],
                    Some (Some 3, Some 2))) by (vm_compute; reflexivity).
  destruct (enoki_to_torch scalar_float (fun _ => 0) array_2x3 true)
    as [log [t| |]]; simpl in H; try discriminate.
  injection H as -> H4 H2. exists t. rewrite H4, H2.
  split; [reflexivity|]. split.
  { unfold fastest_varying_last. simpl. intros H.
    apply Forall_cons in H as [H _]. lia. }
  split; [vm_compute; reflexivity|]. split; [vm_compute; reflexivity|].
  vm_compute. discriminate.
Qed.

(** [enoki_to_torch] run forward, once the scatter is known to return. *)
Lemma enoki_to_torch_run {Scalar} Scalar_t dt init (src : array Scalar) eval
  target' :
  torch_dtype Scalar_t = Ok dt ->
  Forall (fun x => 0 <= x < 2 ^ 64) (contiguous_strides (rev (shape src))) ->
  length (contiguous_strides (rev (shape src))) = length (shape src) ->
  copy_array_scatter 0 0 (shape src) (rev (contiguous_strides (rev (shape src))))
    src (Mapped (t_storage (torch_empty init (rev (shape src)) dt))
           (element_count (shape src)))
  = Some target' ->
  enoki_to_torch Scalar_t init src eval
  = ([map_memory (element_count (shape src));
      scatter_memory (shape src) (rev (contiguous_strides (rev (shape src))))]
     ++ (if eval then [cuda_eval] else []),
     Ok {| t_type_name := "Tensor";
           t_shape := rev (shape src);
           t_dtype := dt;
           t_stride := contiguous_strides (rev (shape src));
           t_storage := m_cells target' |}).
Proof.
  intros Hdt Hstr Hlen Hs. unfold enoki_to_torch. rewrite Hdt.
  cbn -[copy_array_scatter element_count contiguous_strides shape].
  unfold cast_size_t_array. rewrite decide_True by done.
  cbn -[copy_array_scatter element_count contiguous_strides shape] in Hs |- *.
  rewrite Hs. cbn. now destruct eval.
Qed.

(** C2, amended: in both directions the shape and stride arrays of the
    external descriptor are reversed once before the copy is invoked, and
    the copy is invoked once.  Index 0 of the arrays the recursion
    receives is the outermost dimension of the Logical Array, which is the
    last dimension of the external tensor, the unit-stride one of the
    tensor [enoki_to_torch] creates; the last index is the first dimension
    of the external tensor.  For a depth-2 array of shape (2,3) the
    external tensor has shape (3,2) and strides (2,1), and the element at
    (row [r], col [c]) lies at offset [r * 1 + c * 2]: (row 0, col 2) is at
    offset 4. *)
Theorem conversion_dimension_order {Scalar} :
  (forall Scalar_t static (src : tensor Scalar) shp strides,
     gather_memory shp strides ∈ (torch_to_enoki Scalar_t static src).1 ->
     shp = rev (t_shape src) /\ strides = rev (t_stride src)
     /\ (torch_to_enoki Scalar_t static src).1
        = [map_memory (element_count shp); gather_memory shp strides])
  /\ (forall Scalar_t init (src : array Scalar) eval log t,
        enoki_to_torch Scalar_t init src eval = (log, Ok t) ->
        log = [map_memory (element_count (shape src));
               scatter_memory (rev (t_shape t)) (rev (t_stride t))]
              ++ (if eval then [cuda_eval] else [])
        /\ rev (t_shape t) = shape src
        /\ head (rev (t_stride t)) = Some 1)
  /\ (forall Scalar_t dt init eval (x00 x01 x02 x10 x11 x12 : Scalar),
        torch_dtype Scalar_t = Ok dt ->
        let A := StaticArray [DynArray [x00; x01; x02];
                              DynArray [x10; x11; x12]] in
        exists log t,
          enoki_to_torch Scalar_t init A eval = (log, Ok t)
          /\ t_shape t = [3; 2] /\ t_stride t = [2; 1]
          /\ forall r c, 0 <= r < 2 -> 0 <= c < 3 ->
               t_storage t (r * 1 + c * 2) = element [r; c] A).
Proof.
  split; [|split].
  - intros Scalar_t static src shp strides Hin.
    destruct (torch_to_enoki_log Scalar_t static src) as [Hlog|Hlog];
      rewrite Hlog in Hin |- *.
    + now apply elem_of_nil in Hin.
    + apply elem_of_cons in Hin as [Hin|Hin]; [done|].
      apply list_elem_of_singleton in Hin. now injection Hin as -> ->.
  - intros Scalar_t init src eval log t H.
    apply enoki_to_torch_Ok in H as (dt & target' & _ & _ & -> & ->). simpl.
    rewrite rev_involutive. split; [done|]. split; [done|].
    destruct (contiguous_strides_unit_last (rev (shape src))) as [l ->].
    + intros Hnil. apply (f_equal (@rev Z)) in Hnil.
      rewrite rev_involutive in Hnil. now apply shape_nonempty in Hnil.
    + now rewrite rev_unit.
  - intros Scalar_t dt init eval x00 x01 x02 x10 x11 x12 Hdt A.
    assert (Hcells :
      (fun t => m_cells t <$> [0; 1; 2; 3; 4; 5])
        <$> copy_array_scatter 0 0 [2; 3] [1; 2] A
              (Mapped (t_storage (torch_empty init [3; 2] dt)) 6)
      = Some (Some <$> [x00; x10; x01; x11; x02; x12]))
      by (vm_compute; reflexivity).
    destruct (copy_array_scatter 0 0 [2; 3] [1; 2] A _) as [target'|] eqn:Hs;
      [|discriminate].
    injection Hcells as H0 H1 H2 H3 H4 H5.
    eexists _, _. split.
    { apply (enoki_to_torch_run Scalar_t dt init A eval target' Hdt).
      - simpl. repeat constructor; lia.
      - reflexivity.
      - exact Hs. }
    split; [reflexivity|]. split; [reflexivity|].
    intros r c Hr Hc. cbn [t_storage].
    assert (r = 0 \/ r = 1) as [-> | ->] by lia;
      assert (c = 0 \/ c = 1 \/ c = 2) as [-> | [-> | ->]] by lia;
      simpl; assumption.
Qed.

Lemma conversion_dimension_order_witness :
  (exists log t,
     enoki_to_torch scalar_uint32_t (fun _ => 0) array_2x3 false = (log, Ok t)
     /\ t_storage t 4 = Some 3)
  /\ (torch_to_enoki scalar_float [3%nat] tensor_1x2).1
     = [map_memory 2; gather_memory [2; 1] [1; 2]].
Proof.
  destruct (@conversion_dimension_order Z) as (Hg & _ & H23). split.
  - destruct (H23 scalar_uint32_t "int32"%string (fun _ => 0) false
                1 2 3 4 5 6 eq_refl) as (log & t & Ht & _ & _ & Hel).
    exists log, t. split; [exact Ht|]. apply (Hel 0 2); lia.
  - destruct (Hg scalar_float [3%nat] tensor_1x2 [2; 1] [1; 2])
      as (_ & _ & Hlog); [|exact Hlog].
    assert (Hl : (torch_to_enoki scalar_float [3%nat] tensor_1x2).1
                 = [map_memory 2; gather_memory [2; 1] [1; 2]])
      by (vm_compute; reflexivity).
    rewrite Hl. apply list_elem_of_further, list_elem_of_here.
Defined.

(** The two conversions back to back on the array of shape (2,3): the
    tensor [enoki_to_torch] returns is adopted by [torch_to_enoki] as the
    array it came from. *)
Example conversions_roundtrip_2x3 :
  match (enoki_to_torch scalar_uint32_t (fun _ => 0) array_2x3 true).2 with
  | Ok t => (torch_to_enoki scalar_uint32_t [2%nat] t).2 = Ok array_2x3
  | _ => False
  end.
Proof. vm_compute. reflexivity. Qed.

(** ** Rejection of foreign tensors *)

Section Rejection.
Context {Scalar : Type}.

(** A tensor whose type name lacks "Tensor", whose rank is not the depth
    of the target or whose dtype is not the one of the target's scalar
    type is rejected with [reference_cast_error], with no memory event. *)
Lemma torch_to_enoki_rejects Scalar_t static (src : tensor Scalar) dt :
  torch_dtype Scalar_t = Ok dt ->
  contains_Tensor (t_type_name src) = false
  \/ length (t_shape src) <> S (length static)
  \/ t_dtype src <> dt ->
  torch_to_enoki Scalar_t static src = ([], Throw reference_cast_error).
Proof.
  intros Hdt H. unfold torch_to_enoki.
  destruct (contains_Tensor _); cbn; [|done]. rewrite Hdt. cbn.
  destruct H as [H|[H|H]]; [done|..].
  - now rewrite bool_decide_eq_true_2.
  - rewrite (bool_decide_eq_false_2 (t_dtype src = dt)) by done.
    now rewrite orb_true_r.
Qed.

(** A conversion that returns went through every check. *)
Lemma torch_to_enoki_Ok Scalar_t static (src : tensor Scalar) log r :
  torch_to_enoki Scalar_t static src = (log, Ok r) ->
  contains_Tensor (t_type_name src) = true
  /\ torch_dtype Scalar_t = Ok (t_dtype src)
  /\ length (t_shape src) = S (length static)
  /\ copy_array_gather 0 0 (rev (t_shape src)) (rev (t_stride src))
       (Mapped (t_storage src) (element_count (rev (t_shape src))))
       (default_array static) = Some r.
Proof.
  unfold torch_to_enoki.
  destruct (contains_Tensor _); cbn; [|done].
  destruct (torch_dtype Scalar_t) as [dt| |]; cbn; [|done..].
  destruct (bool_decide (length (t_shape src) ≠ S (length static))) eqn:Hrank;
    cbn; [done|].
  destruct (bool_decide (t_dtype src = dt)) eqn:Hdt; cbn; [|done].
  apply bool_decide_eq_false in Hrank. apply bool_decide_eq_true in Hdt.
  unfold cast_size_t_array.
  destruct (decide (_ /\ Forall _ (t_shape src))); cbn; [|done].
  destruct (decide (_ /\ Forall _ (t_stride src))); cbn; [|done].
  destruct (copy_array_gather _ _ _ _ _ _) as [r'|]; cbn; [|done].
  intros [= <- <-]. repeat split; [by subst|].
  destruct (decide (length (t_shape src) = S (length static))); [done|].
  now destruct Hrank.
Qed.

End Rejection.

(** C4, on the code: a float32 tensor of shape (1,2) handed to the
    conversion for a depth-2 array of static size 3 passes the checks of
    type name, rank and dtype; the conversion returns normally, and the
    third component of its result is still the default-constructed one,
    never written. *)
Theorem torch_to_enoki_partial_result :
  torch_to_enoki scalar_float [3%nat] tensor_1x2
  = ([map_memory 2; gather_memory [2; 1] [1; 2]],
     Ok (StaticArray [DynArray [10]; DynArray [20]; DynArray []])).
Proof. vm_compute. reflexivity. Qed.

(** ** Element access *)

(** C7: for every array and every index at or beyond the array's size,
    [__getitem__] throws [index_error] and returns no element; an element
    is only ever returned for an index inside the array's extent, and
    then it is the element stored there. *)
Theorem getitem_out_of_range {Scalar} (a : array Scalar) (index : Z) :
  (index >= size a ->
     getitem a index = Throw index_error
     /\ forall v, getitem a index <> Ok v)
  /\ (forall v, getitem a index = Ok v ->
        0 <= index < size a
        /\ match a with
           | DynArray xs =>
               exists x, xs !! Z.to_nat index = Some x /\ v = scalar_value x
           | StaticArray cs =>
               exists c, cs !! Z.to_nat index = Some c /\ v = array_value c
           end).
Proof.
  unfold getitem. split.
  - intros H. rewrite decide_True by done. split; [done|]. intros v. discriminate.
  - intros v. destruct (decide (index >= size a)); [done|].
    destruct (decide (0 <= index)); [|done].
    destruct a as [xs|cs]; simpl in *.
    + destruct (xs !! Z.to_nat index) as [x|]; [|done].
      intros [= <-]. split; [lia|]. now exists x.
    + destruct (cs !! Z.to_nat index) as [c|]; [|done].
      intros [= <-]. split; [lia|]. now exists c.
Qed.

Lemma getitem_out_of_range_witness :
  getitem array_2x3 2 = Throw index_error
  /\ getitem (DynArray [1; 2; 3]) (2 ^ 64 - 1) = Throw index_error.
Proof.
  split.
  - apply (getitem_out_of_range array_2x3 2). simpl. lia.
  - apply (getitem_out_of_range (DynArray [1; 2; 3]) (2 ^ 64 - 1)). simpl. lia.
Defined.

(** ** The dtype table *)

(** C8: for every scalar type that is not half, float or double and not
    an integral type of 1, 2, 4 or 8 bytes, [torch_dtype] throws the
    runtime error "pytorch_dtype(): Unsupported type"; it returns no
    dtype. *)
Theorem torch_dtype_unsupported (Scalar_t : scalar_type) :
  sc_class Scalar_t <> enoki_half ->
  sc_class Scalar_t <> float ->
  sc_class Scalar_t <> double ->
  (forall is_signed, sc_class Scalar_t = integral is_signed ->
     sizeof Scalar_t <> 1 /\ sizeof Scalar_t <> 2
     /\ sizeof Scalar_t <> 4 /\ sizeof Scalar_t <> 8) ->
  torch_dtype Scalar_t
  = Throw (runtime_error "pytorch_dtype(): Unsupported type").
Proof.
  intros Hh Hf Hd Hi. unfold torch_dtype.
  destruct (sc_class Scalar_t) as [| | |is_signed|]; try done.
  destruct (Hi is_signed eq_refl) as (H1 & H2 & H4 & H8).
  now rewrite !decide_False by done.
Qed.

Lemma torch_dtype_unsupported_witness :
  torch_dtype {| sc_class := integral true; sizeof := 16 |}
  = Throw (runtime_error "pytorch_dtype(): Unsupported type")
  /\ torch_dtype {| sc_class := other_class; sizeof := 8 |}
     = Throw (runtime_error "pytorch_dtype(): Unsupported type").
Proof.
  split.
  - apply torch_dtype_unsupported; simpl; try discriminate.
    intros s _. lia.
  - apply torch_dtype_unsupported; simpl; try discriminate.
Defined.

(** C10: an integral scalar type of 2, 4 or 8 bytes is mapped to "int16",
    "int32" or "int64" whether it is signed or not; only at 1 byte does
    signedness choose, between "int8" and "uint8".  Hence a tensor made
    from an array of [uint32_t] or [uint64_t] has dtype "int32" or
    "int64", and a tensor adopted into such an array has that dtype. *)
Theorem torch_dtype_ignores_signedness :
  (forall is_signed,
     torch_dtype {| sc_class := integral is_signed; sizeof := 2 |} = Ok "int16"
     /\ torch_dtype {| sc_class := integral is_signed; sizeof := 4 |}
        = Ok "int32"
     /\ torch_dtype {| sc_class := integral is_signed; sizeof := 8 |}
        = Ok "int64")
  /\ torch_dtype {| sc_class := integral true; sizeof := 1 |} = Ok "int8"
  /\ torch_dtype {| sc_class := integral false; sizeof := 1 |} = Ok "uint8"
  /\ (forall Scalar init (src : array Scalar) eval log t,
        (enoki_to_torch scalar_uint32_t init src eval = (log, Ok t) ->
           t_dtype t = "int32")
        /\ (enoki_to_torch scalar_uint64_t init src eval = (log, Ok t) ->
              t_dtype t = "int64"))
  /\ (forall Scalar static (src : tensor Scalar) log r,
        (torch_to_enoki scalar_uint32_t static src = (log, Ok r) ->
           t_dtype src = "int32")
        /\ (torch_to_enoki scalar_uint64_t static src = (log, Ok r) ->
              t_dtype src = "int64")).
Proof.
  split; [|split; [|split; [|split]]].
  - intros is_signed. now destruct is_signed.
  - reflexivity.
  - reflexivity.
  - intros Scalar init src eval log t. split; intros H;
      apply enoki_to_torch_Ok in H as (dt & target' & Hdt & _ & _ & ->);
      now injection Hdt as <-.
  - intros Scalar static src log r. split; intros H;
      apply torch_to_enoki_Ok in H as (_ & Hdt & _);
      now injection Hdt as <-.
Qed.

Lemma torch_dtype_ignores_signedness_witness :
  (exists log t,
     enoki_to_torch scalar_uint32_t (fun _ => 0) array_2x3 true = (log, Ok t)
     /\ t_dtype t = "int32"%string)
  /\ (let src := {| t_type_name := "Tensor"; t_shape := [2];
                    t_dtype := "int64"; t_stride := [1];
                    t_storage := mem_of_list [2 ^ 63; 2 ^ 64 - 1] |} in
      torch_to_enoki scalar_uint64_t [] src
      = ([map_memory 2; gather_memory [2] [1]],
         Ok (DynArray [2 ^ 63; 2 ^ 64 - 1]))
      /\ t_dtype src = "int64"%string).
Proof.
  destruct torch_dtype_ignores_signedness as (_ & _ & _ & Hto & Hfrom). split.
  - assert (H : match (enoki_to_torch scalar_uint32_t (fun _ => 0) array_2x3
                         true).2 with
                | Ok _ => True
                | _ => False
                end) by (vm_compute; exact I).
    destruct (enoki_to_torch scalar_uint32_t (fun _ => 0) array_2x3 true)
      as [log [t| |]] eqn:E; simpl in H; try contradiction.
    exists log, t. split; [reflexivity|].
    apply (Hto Z (fun _ => 0) array_2x3 true log t). exact E.
  - intros src.
    assert (H : torch_to_enoki scalar_uint64_t [] src
                = ([map_memory 2; gather_memory [2] [1]],
                   Ok (DynArray [2 ^ 63; 2 ^ 64 - 1])))
      by (vm_compute; reflexivity).
    split; [exact H|]. eapply (Hfrom Z [] src). exact H.
Defined.

(** * Further properties of the bridge *)

(** ** What a gather assembles *)

Section Gathered.
Context {Scalar : Type}.
Implicit Types (source : mapped_array Scalar) (target : array Scalar).

(** The loop of one static level replaces the components [i0 .. i0 + k)
    by what [h] yields for them, or fails where [h] first fails. *)
Lemma gather_loop_mapM (g : Z -> array Scalar -> option (array Scalar))
  (h : Z -> option (array Scalar)) (ok : array Scalar -> Prop) :
  (forall i t0, ok t0 -> g i t0 = h i) ->
  forall k i0 (l : list (array Scalar)),
  0 <= i0 -> (Z.to_nat i0 + k <= length l)%nat ->
  (forall b t0, (Z.to_nat i0 <= b)%nat -> l !! b = Some t0 -> ok t0) ->
  for_loop k i0
    (fun i target => c ← coeff target i; c' ← g i c; set_coeff target i c')
    (StaticArray l)
  = cs ← mapM h (seqZ i0 (Z.of_nat k));
    Some (StaticArray (take (Z.to_nat i0) l ++ cs
                       ++ drop (Z.to_nat i0 + k) l)).
Proof.
  intros Hg. induction k as [|k IH]; intros i0 l Hi0 Hlen Hok.
  - simpl. rewrite Nat.add_0_r, take_drop. done.
  - rewrite seqZ_cons by lia. rewrite Nat2Z.inj_succ, Z.pred_succ.
    destruct (lookup_lt_is_Some_2 l (Z.to_nat i0)) as [t0 Ht0]; [lia|].
    assert (Hc : coeff (StaticArray l) i0 = Some t0).
    { simpl. now rewrite decide_True by done. }
    assert (Hs : forall c, set_coeff (StaticArray l) i0 c
                           = Some (StaticArray (<[Z.to_nat i0 := c]> l))).
    { intros c. simpl. now rewrite decide_True by lia. }
    cbn [for_loop mapM]. rewrite Hc. cbn [mbind option_bind].
    rewrite (Hg i0 t0) by eauto.
    destruct (h i0) as [c|]; [|done]. cbn [mbind option_bind].
    rewrite Hs. cbn [mbind option_bind].
    replace (Z.succ i0) with (i0 + 1) by lia. rewrite IH.
    + replace (Z.to_nat (i0 + 1)) with (S (Z.to_nat i0)) by lia.
      destruct (mapM h (seqZ (i0 + 1) (Z.of_nat k))) as [cs|]; [|done].
      cbn. do 2 f_equal.
      rewrite (take_S_r _ _ c) by (apply list_lookup_insert_eq; lia).
      rewrite take_insert_ge by lia. rewrite drop_insert_lt by lia.
      rewrite <- app_assoc. simpl.
      now replace (Z.to_nat i0 + S k)%nat with (S (Z.to_nat i0 + k)) by lia.
    + lia.
    + rewrite length_insert. lia.
    + intros b t1 Hb. rewrite list_lookup_insert_ne by lia. apply Hok. lia.
Qed.

Lemma gather_contract_gathered rest :
  forall Index offset shp strides source target,
  has_static_shape rest Index shp target = true ->
  gather_contract to_uint32 rest Index offset shp strides source target
  = gathered rest Index offset shp strides source.
Proof.
  induction rest as [|rest IH]; intros Index offset shp strides source target Ht.
  - destruct target; [|done]. simpl. now rewrite innermost_index_contract.
  - destruct target as [|ts]; [done|].
    apply has_static_shape_coeffs in Ht as [Hlen Hts].
    cbn [gather_contract gathered].
    rewrite (gather_loop_mapM _
      (fun i => gathered rest (S Index) (offset + i * nth Index strides 0)
                  shp strides source)
      (fun t0 => has_static_shape rest (S Index) shp t0 = true)).
    + rewrite seqZ_of_to_nat.
      destruct (mapM _ _) as [cs|]; [|done]. simpl. do 2 f_equal.
      rewrite drop_ge by lia. now rewrite app_nil_r.
    + intros i t0 Hok. now apply IH.
    + lia.
    + lia.
    + intros b t0 _ Hb. eapply Hts, Hb.
Qed.

Lemma copy_array_gather_gathered Index offset shp strides source target :
  (Index < length shp)%nat ->
  has_static_shape (length shp - 1 - Index) Index shp target = true ->
  copy_array_gather Index offset shp strides source target
  = gathered (length shp - 1 - Index) Index offset shp strides source.
Proof.
  intros HI Ht. unfold copy_array_gather. rewrite decide_True by done.
  rewrite copy_array_gather_rec_contract. now apply gather_contract_gathered.
Qed.

(** What is assembled depends on the cells at the flat indices only. *)
Lemma gathered_ext rest : forall Index offset shp strides source source',
  (forall j, j ∈ flat_indices_rec rest Index offset shp strides ->
     m_cells source j = m_cells source' j) ->
  gathered rest Index offset shp strides source
  = gathered rest Index offset shp strides source'.
Proof.
  induction rest as [|rest IH]; intros Index offset shp strides source source' H;
    simpl in *.
  - f_equal. unfold gather. apply Forall_mapM_ext, Forall_forall.
    intros j Hj. now apply H.
  - f_equal. apply Forall_mapM_ext, Forall_forall. intros i Hi.
    apply IH. intros j Hj. apply H. apply list_elem_of_bind. eauto.
Qed.

(** It exists exactly when every flat index lies in the allocation. *)
Lemma gathered_is_Some rest : forall Index offset shp strides source,
  is_Some (gathered rest Index offset shp strides source)
  <-> Forall (fun j => is_Some (m_cells source j))
        (flat_indices_rec rest Index offset shp strides).
Proof.
  induction rest as [|rest IH]; intros Index offset shp strides source; simpl.
  - rewrite fmap_is_Some. unfold gather. now rewrite mapM_is_Some.
  - rewrite fmap_is_Some, mapM_is_Some, Forall_bind.
    apply Forall_iff. intros i. simpl. apply IH.
Qed.

Lemma element_static i idx (cs : list (array Scalar)) :
  element (i :: idx) (StaticArray cs)
  = if decide (0 <= i)
    then match cs !! Z.to_nat i with
         | Some c => element idx c
         | None => None
         end
    else None.
Proof. now destruct idx. Qed.

(** Its element at a visited position is the cell at that position's
    flat index. *)
Lemma gathered_element rest : forall Index offset shp strides source r idx,
  gathered rest Index offset shp strides source = Some r ->
  length idx = S rest -> visited idx Index shp ->
  is_Some (element idx r)
  /\ element idx r
     = m_cells source (to_uint32 (offset + linear idx Index strides)).
Proof.
  induction rest as [|rest IH];
    intros Index offset shp strides source r idx Hr Hlen Hvis.
  - destruct idx as [|i [|? ?]]; try done. simpl in *.
    destruct (gather source _) as [ys|] eqn:Hg; [|done]. injection Hr as <-.
    unfold gather in Hg. apply mapM_Some_1 in Hg.
    rewrite innermost_index_contract in Hg. unfold contract_index in Hg.
    assert (Hi : ((fun i0 => to_uint32 (offset + i0 * nth Index strides 0))
                    <$> seqZ 0 (to_uint32 (nth Index shp 0))) !! Z.to_nat i
                 = Some (to_uint32 (offset + i * nth Index strides 0))).
    { rewrite list_lookup_fmap, lookup_seqZ_lt by lia.
      now replace (0 + Z.of_nat (Z.to_nat i)) with i by lia. }
    destruct (Forall2_lookup_l _ _ _ _ _ Hg Hi) as (y & Hy & Hcell).
    rewrite decide_True by lia. rewrite Hy.
    replace (offset + (i * nth Index strides 0 + 0))
      with (offset + i * nth Index strides 0) by lia.
    rewrite Hcell. eauto.
  - destruct idx as [|i [|i' idx]]; try done.
    destruct Hvis as [Hi Hvis]. cbn [gathered] in Hr.
    destruct (mapM _ _) as [cs|] eqn:Hm; [|done]. injection Hr as <-.
    apply mapM_Some_1 in Hm.
    assert (Hs : seqZ 0 (nth Index shp 0) !! Z.to_nat i = Some i).
    { rewrite lookup_seqZ_lt by lia. f_equal. lia. }
    destruct (Forall2_lookup_l _ _ _ _ _ Hm Hs) as (c & Hc & Hgc).
    rewrite element_static, decide_True by lia. rewrite Hc.
    replace (offset + linear (i :: i' :: idx) Index strides)
      with (offset + i * nth Index strides 0
            + linear (i' :: idx) (S Index) strides) by (simpl; lia).
    apply (IH _ _ _ _ _ _ _ Hgc); [simpl in *; lia|done].
Qed.

(** Its extents are those of the shape. *)
Lemma gathered_has_shape rest : forall Index offset shp strides source r,
  gathered rest Index offset shp strides source = Some r ->
  (forall d, 0 <= nth d shp 0) ->
  nth (Index + rest) shp 0 < 2 ^ 32 ->
  has_shape rest Index shp r = true.
Proof.
  induction rest as [|rest IH]; intros Index offset shp strides source r Hr
    Hpos Hlast.
  - simpl in Hr. destruct (gather source _) as [ys|] eqn:Hg; [|done].
    injection Hr as <-. simpl. apply bool_decide_eq_true.
    rewrite Nat.add_0_r in Hlast. split; [|done].
    unfold gather in Hg. apply length_mapM in Hg. rewrite <- Hg.
    unfold innermost_index, fmadd, arange.
    rewrite length_fmap, length_seqZ, to_uint32_small; [|split; [apply Hpos|done]].
    specialize (Hpos Index). lia.
  - cbn [gathered] in Hr. destruct (mapM _ _) as [cs|] eqn:Hm; [|done].
    injection Hr as <-. cbn [has_shape]. apply andb_true_intro. split.
    + apply bool_decide_eq_true. apply length_mapM in Hm. rewrite <- Hm.
      rewrite length_seqZ. specialize (Hpos Index). lia.
    + apply forallb_forall. intros c Hc. apply list_elem_of_In in Hc.
      apply list_elem_of_lookup in Hc as [k Hk].
      apply mapM_Some_1 in Hm.
      destruct (Forall2_lookup_r _ _ _ _ _ Hm Hk) as (i & _ & Hgc).
      apply (IH _ _ _ _ _ _ Hgc Hpos).
      now replace (S Index + rest)%nat with (Index + S rest)%nat by lia.
Qed.

End Gathered.

(** ** A scatter as one flat scatter *)

Section Flattening.
Context {Scalar : Type}.
Implicit Types (cells : memory Scalar) (tgt : mapped_array Scalar).

Lemma scatter_lanes_app (xs ys : list Scalar) : forall index index' cells,
  length xs = length index ->
  scatter_lanes cells (xs ++ ys) (index ++ index')
  = cells' ← scatter_lanes cells xs index; scatter_lanes cells' ys index'.
Proof.
  induction xs as [|x xs IH]; intros [|i index] index' cells Hlen;
    simpl in *; try done.
  destruct (cells i); [|done]. apply IH. lia.
Qed.

Lemma scatter_app tgt (xs ys : list Scalar) index index' :
  length xs = length index ->
  scatter tgt (xs ++ ys) (index ++ index')
  = tgt' ← scatter tgt xs index; scatter tgt' ys index'.
Proof.
  intros Hlen. unfold scatter. rewrite scatter_lanes_app by done.
  now destruct (scatter_lanes (m_cells tgt) xs index).
Qed.

Lemma scatter_lanes_is_Some (xs : list Scalar) : forall index cells,
  is_Some (scatter_lanes cells xs index)
  <-> length xs = length index
      /\ Forall (fun j => is_Some (cells j)) index.
Proof.
  induction xs as [|x xs IH]; intros [|i index] cells; simpl.
  - split; [intros _; split; [done|constructor]|eauto].
  - split; [intros []; done|intros []; done].
  - split; [intros []; done|intros []; done].
  - destruct (cells i) as [v|] eqn:Hi.
    + rewrite IH. rewrite Forall_cons, Hi. split.
      * intros [Hlen Hall]. split; [lia|]. split; [eauto|].
        eapply Forall_impl; [exact Hall|]. intros j. unfold store.
        destruct (decide (j = i)) as [->|]; [rewrite Hi; eauto|done].
      * intros [Hlen [_ Hall]]. split; [lia|].
        eapply Forall_impl; [exact Hall|]. intros j Hj. unfold store.
        destruct (decide (j = i)); eauto.
    + split; [intros []; done|]. intros [_ Hall].
      apply Forall_cons in Hall as [[? ?] _]. congruence.
Qed.

Lemma scatter_is_Some tgt (xs : list Scalar) index :
  is_Some (scatter tgt xs index)
  <-> length xs = length index
      /\ Forall (fun j => is_Some (m_cells tgt j)) index.
Proof.
  rewrite <- scatter_lanes_is_Some. unfold scatter.
  destruct (scatter_lanes _ _ _); simpl; split; intros []; eauto; done.
Qed.

Lemma has_shape_static rest : forall Index shp (a : array Scalar),
  has_shape rest Index shp a = true -> has_static_shape rest Index shp a = true.
Proof.
  induction rest as [|rest IH]; intros Index shp [xs|cs] H; try done.
  apply has_shape_coeffs in H as [Hlen Hcs]. simpl.
  apply andb_true_intro. split; [now apply bool_decide_eq_true|].
  apply forallb_forall. intros c Hc. apply list_elem_of_In in Hc.
  apply list_elem_of_lookup in Hc as [k Hk]. eapply IH, Hcs, Hk.
Qed.

(** An array of the given shape has as many elements as the traversal
    has flat indices. *)
Lemma length_flat_values rest : forall Index offset shp strides (a : array Scalar),
  has_shape rest Index shp a = true ->
  length (flat_values a)
  = length (flat_indices_rec rest Index offset shp strides).
Proof.
  induction rest as [|rest IH]; intros Index offset shp strides [xs|cs] Ha;
    try done.
  - simpl in *. apply bool_decide_eq_true in Ha as [Hlen Hsmall].
    unfold innermost_index, fmadd, arange.
    rewrite length_fmap, length_seqZ, to_uint32_small by lia. lia.
  - apply has_shape_coeffs in Ha as [Hlen Hcs].
    cbn [flat_values flat_indices_rec]. rewrite <- Hlen.
    assert (H : forall (l : list (array Scalar)) i0,
      (forall k c, l !! k = Some c -> has_shape rest (S Index) shp c = true) ->
      length (l ≫= flat_values)
      = length (seqZ i0 (Z.of_nat (length l)) ≫= fun i =>
          flat_indices_rec rest (S Index) (offset + i * nth Index strides 0)
            shp strides)).
    { induction l as [|c l IHl]; intros i0 Hl; [done|].
      cbn [length]. rewrite seqZ_bind_cons. cbn [mbind list_bind].
      rewrite !length_app. f_equal.
      - apply IH. apply (Hl 0%nat). done.
      - apply IHl. intros k c' Hk. apply (Hl (S k)). done. }
    now apply H.
Qed.

(** On an array of the given shape the recursive scatter is one scatter
    of all its elements over all flat indices. *)
Lemma scatter_contract_flat rest :
  forall Index offset shp strides (a : array Scalar) tgt,
  has_shape rest Index shp a = true ->
  scatter_contract to_uint32 rest Index offset shp strides a tgt
  = scatter tgt (flat_values a)
      (flat_indices_rec rest Index offset shp strides).
Proof.
  induction rest as [|rest IH]; intros Index offset shp strides [xs|cs] tgt Ha;
    try done.
  - simpl. now rewrite innermost_index_contract.
  - apply has_shape_coeffs in Ha as [Hlen Hcs].
    cbn [scatter_contract flat_values flat_indices_rec].
    rewrite <- Hlen, Nat2Z.id.
    set (F := fun i => flat_indices_rec rest (S Index)
                         (offset + i * nth Index strides 0) shp strides).
    assert (H : forall k i0 t, 0 <= i0 ->
      (Z.to_nat i0 + k = length cs)%nat ->
      for_loop k i0
        (fun i target =>
           c ← coeff (StaticArray cs) i;
           scatter_contract to_uint32 rest (S Index)
             (offset + i * nth Index strides 0) shp strides c target) t
      = scatter t (drop (Z.to_nat i0) cs ≫= flat_values)
          (seqZ i0 (Z.of_nat k) ≫= F)).
    { induction k as [|k IHk]; intros i0 t Hi0 Hk.
      - rewrite drop_ge by lia. now destruct t.
      - destruct (lookup_lt_is_Some_2 cs (Z.to_nat i0)) as [c Hc]; [lia|].
        rewrite (drop_S _ _ _ Hc), seqZ_bind_cons. cbn [mbind list_bind].
        rewrite scatter_app by (apply length_flat_values; eauto).
        assert (Hco : coeff (StaticArray cs) i0 = Some c).
        { simpl. now rewrite decide_True by done. }
        cbn [for_loop]. rewrite Hco.
        cbn [mbind option_bind]. rewrite IH by eauto. fold (F i0).
        destruct (scatter t (flat_values c) (F i0)) as [t'|]; [|done].
        cbn [mbind option_bind]. rewrite IHk by lia.
        now replace (Z.to_nat (i0 + 1)) with (S (Z.to_nat i0)) by lia. }
    rewrite H by lia. done.
Qed.

End Flattening.

(** ** The dense layout of the conversions *)

Section Dense.

Lemma to_uint32_bounds z : 0 <= to_uint32 z < 2 ^ 32.
Proof. unfold to_uint32. apply Z.mod_pos_bound. lia. Qed.

Lemma to_uint32_le z : 0 <= z -> to_uint32 z <= z.
Proof. intros H. unfold to_uint32. apply Z.mod_le; lia. Qed.

Lemma flat_indices_rec_shift rest : forall Index offset x y shp strides,
  flat_indices_rec rest (S Index) offset (x :: shp) (y :: strides)
  = flat_indices_rec rest Index offset shp strides.
Proof.
  induction rest as [|rest IH]; intros Index offset x y shp strides; [done|].
  cbn [flat_indices_rec]. change (nth (S Index) (x :: shp) 0) with (nth Index shp 0).
  change (nth (S Index) (y :: strides) 0) with (nth Index strides 0).
  apply Forall_bind_ext, Forall_forall. intros i _. apply IH.
Qed.

Lemma linear_shift idx : forall Index y strides,
  linear idx (S Index) (y :: strides) = linear idx Index strides.
Proof.
  induction idx as [|i idx IH]; intros Index y strides; [done|].
  cbn [linear]. now rewrite IH.
Qed.

Lemma visited_shift idx : forall Index x shp,
  visited idx (S Index) (x :: shp) <-> visited idx Index shp.
Proof.
  induction idx as [|i [|i' idx] IH]; intros Index x shp; [done|done|].
  change (visited (i :: i' :: idx) (S Index) (x :: shp))
    with (0 <= i < nth Index shp 0
          /\ visited (i' :: idx) (S (S Index)) (x :: shp)).
  change (visited (i :: i' :: idx) Index shp)
    with (0 <= i < nth Index shp 0 /\ visited (i' :: idx) (S Index) shp).
  now rewrite IH.
Qed.

Lemma foldr_mul_scale (l : list Z) a :
  foldr Z.mul a l = a * foldr Z.mul 1 l.
Proof. induction l as [|x l IH]; simpl; [lia|]. rewrite IH. lia. Qed.

Lemma product_rev (l : list Z) : foldr Z.mul 1 (rev l) = foldr Z.mul 1 l.
Proof.
  induction l as [|x l IH]; [done|]. simpl.
  rewrite foldr_app. simpl. rewrite foldr_mul_scale, IH. lia.
Qed.

Lemma capacity_scale (l : list Z) a :
  foldr (fun n acc => Z.max n 1 * acc) a l = a * capacity l.
Proof.
  unfold capacity. induction l as [|x l IH]; simpl; [lia|]. rewrite IH. lia.
Qed.

Lemma capacity_pos (l : list Z) : 1 <= capacity l.
Proof. unfold capacity. induction l as [|x l IH]; simpl; nia. Qed.

Lemma product_le_capacity (l : list Z) :
  Forall (fun s => 0 <= s) l ->
  0 <= foldr Z.mul 1 l <= capacity l.
Proof.
  unfold capacity. induction 1 as [|x l Hx _ IH]; simpl; [lia|]. nia.
Qed.

Lemma contiguous_strides_snoc (l : list Z) x :
  contiguous_strides (l ++ [x])
  = ((fun v => v * Z.max x 1) <$> contiguous_strides l) ++ [1].
Proof.
  induction l as [|a l IH]; [done|]. cbn [app contiguous_strides fmap list_fmap].
  rewrite IH. f_equal. rewrite foldr_snoc.
  change (foldr (fun n acc => Z.max n 1 * acc) 1 l) with (capacity l).
  rewrite capacity_scale. lia.
Qed.

Lemma length_contiguous_strides (l : list Z) :
  length (contiguous_strides l) = length l.
Proof. induction l as [|a l IH]; simpl; [done|]. now rewrite IH. Qed.

Lemma dense_strides_scale (shp : list Z) : forall p,
  dense_strides p shp = (fun v => v * p) <$> dense_strides 1 shp.
Proof.
  induction shp as [|s shp IH]; intros p; [done|]. cbn.
  rewrite (IH (p * Z.max s 1)), (IH (1 * Z.max s 1)).
  rewrite <- list_fmap_compose. f_equal; [lia|].
  apply list_fmap_ext. intros _ v _. simpl. lia.
Qed.

(** The stride array [enoki_to_torch] hands to the scatter: 1 for the
    outermost dimension, then the running product of the extents. *)
Lemma contiguous_strides_dense (shp : list Z) :
  rev (contiguous_strides (rev shp)) = dense_strides 1 shp.
Proof.
  induction shp as [|s shp IH]; [done|]. cbn [rev dense_strides].
  rewrite contiguous_strides_snoc, rev_unit, <- map_rev.
  change (map ?f ?l) with (f <$> l). rewrite IH.
  now rewrite (dense_strides_scale shp (1 * Z.max s 1)), Z.mul_1_l.
Qed.

Lemma dense_strides_bound (shp : list Z) : forall p, 0 < p ->
  Forall (fun x => 0 < x <= p * capacity shp) (dense_strides p shp).
Proof.
  induction shp as [|s shp IH]; intros p Hp; [constructor|].
  cbn [dense_strides]. pose proof (capacity_pos shp) as Hc.
  change (capacity (s :: shp)) with (Z.max s 1 * capacity shp).
  assert (Hm : 1 <= Z.max s 1) by lia.
  set (m := Z.max s 1) in *. clearbody m.
  assert (Hmc : 1 <= m * capacity shp) by nia.
  constructor; [nia|].
  eapply Forall_impl; [apply (IH (p * m)); nia|]. intros x Hx. simpl in Hx.
  rewrite Z.mul_assoc. exact Hx.
Qed.

(** The flat indices of a dense layout are pairwise distinct and stay
    within the span of the layout: nothing wraps. *)
Lemma dense_flat_indices rest : forall shp p base q,
  length shp = S rest ->
  (forall d, 0 <= nth d shp 0) ->
  (forall d, (S d < length shp)%nat -> 1 <= nth d shp 0) ->
  0 <= base -> 0 <= q < p ->
  base + p * foldr Z.mul 1 shp <= 2 ^ 32 ->
  NoDup (flat_indices_rec rest 0 (base + q) shp (dense_strides p shp))
  /\ forall j,
       j ∈ flat_indices_rec rest 0 (base + q) shp (dense_strides p shp) ->
       base <= j < base + p * foldr Z.mul 1 shp /\ (j - base) mod p = q.
Proof.
  induction rest as [|rest IH]; intros shp p base q Hlen Hnn Hpos Hb Hq Hfit.
  - destruct shp as [|s [|? ?]]; try done. simpl in Hfit |- *.
    pose proof (Hnn 0%nat) as Hs. simpl in Hs.
    pose proof (to_uint32_bounds s) as Hr.
    pose proof (to_uint32_le s Hs) as Hle.
    assert (Hv : forall i, 0 <= i < to_uint32 s ->
              to_uint32 (base + q + i * p) = base + q + i * p).
    { intros i Hi. apply to_uint32_small. nia. }
    rewrite innermost_index_contract. unfold contract_index. split.
    + apply NoDup_fmap_2_strong; [|apply NoDup_seqZ].
      intros i i' Hi Hi'. apply elem_of_seqZ in Hi, Hi'.
      rewrite !Hv by lia. nia.
    + intros j Hj. apply list_elem_of_fmap in Hj as (i & -> & Hi).
      apply elem_of_seqZ in Hi. rewrite Hv by lia. split; [nia|].
      replace (base + q + i * p - base) with (q + i * p) by lia.
      rewrite Z_mod_plus_full. apply Z.mod_small. lia.
  - destruct shp as [|s shp]; [done|].
    pose proof (Hpos 0%nat) as Hs. simpl in Hs, Hlen.
    specialize (Hs ltac:(lia)).
    cbn [dense_strides flat_indices_rec nth]. rewrite Z.max_l by lia.
    assert (Hbranch : forall i, 0 <= i < s ->
      NoDup (flat_indices_rec rest 0 (base + (q + i * p)) shp
               (dense_strides (p * s) shp))
      /\ forall j,
           j ∈ flat_indices_rec rest 0 (base + (q + i * p)) shp
                 (dense_strides (p * s) shp) ->
           base <= j < base + p * s * foldr Z.mul 1 shp
           /\ (j - base) mod (p * s) = q + i * p).
    { intros i Hi. apply IH.
      - lia.
      - intros d. apply (Hnn (S d)).
      - intros d Hd. apply (Hpos (S d)). simpl. lia.
      - done.
      - nia.
      - simpl in Hfit. lia. }
    assert (Heq : forall i,
      flat_indices_rec rest 1 (base + q + i * p) (s :: shp)
        (p :: dense_strides (p * s) shp)
      = flat_indices_rec rest 0 (base + (q + i * p)) shp
          (dense_strides (p * s) shp)).
    { intros i. rewrite flat_indices_rec_shift. f_equal. lia. }
    split.
    + apply NoDup_bind; [| |apply NoDup_seqZ].
      * intros i i' j Hi Hi' Hj Hj'. apply elem_of_seqZ in Hi, Hi'.
        rewrite Heq in Hj, Hj'.
        apply (Hbranch i) in Hj as [_ Hj]; [|lia].
        apply (Hbranch i') in Hj' as [_ Hj']; [|lia]. nia.
      * intros i Hi. apply elem_of_seqZ in Hi. rewrite Heq.
        apply Hbranch. lia.
    + intros j Hj. apply list_elem_of_bind in Hj as (i & Hj & Hi).
      apply elem_of_seqZ in Hi. rewrite Heq in Hj.
      apply (Hbranch i) in Hj as [Hrange Hmod]; [|lia].
      split; [simpl; lia|].
      rewrite <- (Z.mod_mod_divide (j - base) (p * s) p)
        by (exists s; lia).
      rewrite Hmod, Z_mod_plus_full. apply Z.mod_small. lia.
Qed.

(** A visited position of a dense layout has its linear index within
    the span. *)
Lemma linear_dense_bound idx : forall shp p,
  length idx = length shp ->
  (forall d, 0 <= nth d shp 0) ->
  visited idx 0 shp -> 0 < p ->
  0 <= linear idx 0 (dense_strides p shp)
  /\ linear idx 0 (dense_strides p shp) + p <= p * foldr Z.mul 1 shp.
Proof.
  induction idx as [|i [|i' idx] IH]; intros shp p Hlen Hnn Hvis Hp; [done|..].
  - destruct shp as [|s [|? ?]]; try done.
    pose proof (Hnn 0%nat) as Hs. cbn [nth] in Hs.
    cbn [visited nth] in Hvis. cbn [dense_strides linear nth foldr].
    pose proof (to_uint32_le s Hs). split; [nia|].
    replace (i * p + 0 + p) with ((i + 1) * p) by lia.
    replace (p * (s * 1)) with (s * p) by lia.
    apply Z.mul_le_mono_nonneg_r; lia.
  - destruct shp as [|s shp]; [done|].
    destruct Hvis as [Hi Hvis]. simpl in Hi.
    apply visited_shift in Hvis.
    cbn [dense_strides foldr].
    change (linear (i :: i' :: idx) 0 (p :: dense_strides (p * Z.max s 1) shp))
      with (i * p + linear (i' :: idx) 1
                      (p :: dense_strides (p * Z.max s 1) shp)).
    rewrite linear_shift. rewrite Z.max_l by lia.
    destruct (IH shp (p * s)) as [H0 H1]; [simpl in *; lia| |done|nia|].
    { intros d. apply (Hnn (S d)). }
    assert (Hip : (i + 1) * p <= s * p)
      by (apply Z.mul_le_mono_nonneg_r; lia).
    split; [nia|]. nia.
Qed.

End Dense.

(** ** The conversions on regular arrays *)

Section EndToEnd.
Context {Scalar : Type}.

Lemma shape_nonneg d : forall a : array Scalar, 0 <= nth d (shape a) 0.
Proof.
  induction d as [|d IH]; intros [xs|[|c cs]]; simpl; try lia.
  - destruct d; simpl; lia.
  - destruct d; simpl; lia.
  - apply IH.
Qed.

Lemma shape_outer_positive d : forall a : array Scalar,
  (S d < length (shape a))%nat -> 1 <= nth d (shape a) 0.
Proof.
  induction d as [|d IH]; intros [xs|[|c cs]]; simpl; try lia.
  intros H. apply IH. lia.
Qed.

Lemma shape_length_pos (a : array Scalar) : (0 < length (shape a))%nat.
Proof. destruct a; simpl; lia. Qed.

Lemma default_array_static rest : forall Index shp,
  (forall d, 0 <= nth d shp 0) ->
  (Index + rest < length shp)%nat ->
  has_static_shape rest Index shp
    (default_array (Scalar := Scalar)
       (Z.to_nat <$> take rest (drop Index shp))) = true.
Proof.
  induction rest as [|rest IH]; intros Index shp Hnn Hlen; [done|].
  destruct (lookup_lt_is_Some_2 shp Index) as [s Hs]; [lia|].
  rewrite (drop_S _ _ _ Hs). cbn [take fmap list_fmap default_array has_static_shape].
  assert (Hn : nth Index shp 0 = s) by (rewrite nth_lookup, Hs; done).
  apply andb_true_intro. split.
  - apply bool_decide_eq_true. rewrite length_replicate, Hn.
    specialize (Hnn Index). lia.
  - apply forallb_forall. intros c Hc. apply list_elem_of_In in Hc.
    apply elem_of_replicate in Hc as [-> _]. apply IH; [done|lia].
Qed.

(** The facts about the layout of a regular array that both conversions
    rest on. *)
Lemma regular_dense (a : array Scalar) :
  regular a = true -> capacity (shape a) <= 2 ^ 32 ->
  let shp := shape a in
  NoDup (flat_indices 0 shp (dense_strides 1 shp))
  /\ (forall j, j ∈ flat_indices 0 shp (dense_strides 1 shp) ->
        0 <= j < foldr Z.mul 1 shp)
  /\ Forall (fun x => 0 <= x < 2 ^ 64) shp
  /\ Forall (fun x => 0 <= x < 2 ^ 64) (dense_strides 1 shp).
Proof.
  intros Hreg Hcap shp. change (shape a) with shp in Hcap.
  assert (Hnn : forall d, 0 <= nth d shp 0) by (intros d; apply shape_nonneg).
  assert (Hall : Forall (fun s => 0 <= s) shp).
  { apply Forall_forall. intros s Hs.
    apply list_elem_of_lookup in Hs as [d Hd].
    specialize (Hnn d). rewrite nth_lookup, Hd in Hnn. done. }
  pose proof (product_le_capacity shp Hall) as Hprod.
  pose proof (shape_length_pos a) as Hlen. change (shape a) with shp in Hlen.
  assert (Hdense :
    NoDup (flat_indices_rec (length shp - 1) 0 (0 + 0) shp
             (dense_strides 1 shp))
    /\ forall j,
         j ∈ flat_indices_rec (length shp - 1) 0 (0 + 0) shp
               (dense_strides 1 shp) ->
         0 <= j < 0 + 1 * foldr Z.mul 1 shp /\ (j - 0) mod 1 = 0).
  { apply dense_flat_indices.
    - lia.
    - exact Hnn.
    - intros d Hd. now apply shape_outer_positive.
    - lia.
    - lia.
    - lia. }
  destruct Hdense as [Hnd Hin].
  split; [exact Hnd|]. split.
  - intros j Hj. apply Hin in Hj as [Hj _]. lia.
  - split.
    + apply Forall_forall. intros s Hs.
      assert (Hs0 : 0 <= s) by (rewrite Forall_forall in Hall; auto).
      split; [done|]. apply list_elem_of_split in Hs as (l1 & l2 & Hs).
      assert (s <= capacity shp); [|lia].
      rewrite Hs. unfold capacity. rewrite foldr_app. cbn [foldr].
      rewrite capacity_scale.
      pose proof (capacity_pos l1). pose proof (capacity_pos l2).
      fold (capacity l2).
      assert (Hm : s <= Z.max s 1) by lia.
      set (m := Z.max s 1) in *. clearbody m.
      assert (1 <= capacity l2 * capacity l1) by nia. nia.
    + eapply Forall_impl; [apply (dense_strides_bound shp 1); lia|].
      intros x Hx. simpl in Hx. lia.
Qed.

(** [enoki_to_torch] on a regular array whose layout spans at most 2^32
    cells, run forward. *)
Lemma enoki_to_torch_regular Scalar_t dt init (a : array Scalar) eval :
  torch_dtype Scalar_t = Ok dt ->
  regular a = true -> capacity (shape a) <= 2 ^ 32 ->
  exists target',
    copy_array_scatter 0 0 (shape a) (dense_strides 1 (shape a)) a
      (Mapped (t_storage (torch_empty init (rev (shape a)) dt))
         (element_count (shape a)))
    = Some target'
    /\ enoki_to_torch Scalar_t init a eval
       = ([map_memory (element_count (shape a));
           scatter_memory (shape a) (dense_strides 1 (shape a))]
          ++ (if eval then [cuda_eval] else []),
          Ok {| t_type_name := "Tensor";
                t_shape := rev (shape a);
                t_dtype := dt;
                t_stride := contiguous_strides (rev (shape a));
                t_storage := m_cells target' |})
    /\ forall m t0,
         (forall j, j ∈ flat_indices 0 (shape a) (dense_strides 1 (shape a)) ->
            m_cells m j = m_cells target' j) ->
         has_static_shape (length (shape a) - 1) 0 (shape a) t0 = true ->
         copy_array_gather 0 0 (shape a) (dense_strides 1 (shape a)) m t0
         = Some a.
Proof.
  intros Hdt Hreg Hcap.
  destruct (regular_dense a Hreg Hcap) as (Hnd & Hin & Hshp & Hstr).
  pose proof (shape_length_pos a) as Hlen.
  destruct (roundtrip_contract (length (shape a) - 1) 0 0 (shape a)
              (dense_strides 1 (shape a)) a
              (Mapped (t_storage (torch_empty init (rev (shape a)) dt))
                 (element_count (shape a))))
    as (target' & Hs & Hg); [exact Hreg|exact Hnd| |].
  { apply Forall_forall. intros j Hj. apply Hin in Hj. simpl.
    rewrite product_rev, decide_True by done. eauto. }
  exists target'.
  assert (Hsc : copy_array_scatter 0 0 (shape a) (dense_strides 1 (shape a)) a
                  (Mapped (t_storage (torch_empty init (rev (shape a)) dt))
                     (element_count (shape a))) = Some target').
  { unfold copy_array_scatter. rewrite decide_True by done.
    rewrite copy_array_scatter_rec_contract.
    now replace (length (shape a) - 1 - 0)%nat
      with (length (shape a) - 1)%nat by lia. }
  split; [exact Hsc|]. split.
  - rewrite <- contiguous_strides_dense.
    apply enoki_to_torch_run; [done| | |].
    + rewrite <- (rev_involutive (contiguous_strides _)).
      rewrite contiguous_strides_dense. now apply Forall_rev.
    + now rewrite length_contiguous_strides, length_rev.
    + now rewrite contiguous_strides_dense.
  - intros m t0 Hm Ht0. unfold copy_array_gather.
    rewrite decide_True by done. rewrite copy_array_gather_rec_contract.
    replace (length (shape a) - 1 - 0)%nat
      with (length (shape a) - 1)%nat by lia.
    now apply Hg.
Qed.

End EndToEnd.

(** ** A gather as one flat gather *)

Section GatherFlat.
Context {Scalar : Type}.

Lemma mapM_app_Some {A B} (f : A -> option B) (l1 l2 : list A) k1 k2 :
  mapM f l1 = Some k1 -> mapM f l2 = Some k2 ->
  mapM f (l1 ++ l2) = Some (k1 ++ k2).
Proof.
  intros H1 H2. apply mapM_Some_2, Forall2_app; now apply mapM_Some_1.
Qed.

(** The elements of what a gather assembles, in order, are the cells at
    the flat indices, in order. *)
Lemma gathered_flat rest :
  forall Index offset shp strides (source : mapped_array Scalar) r,
  gathered rest Index offset shp strides source = Some r ->
  gather source (flat_indices_rec rest Index offset shp strides)
  = Some (flat_values r).
Proof.
  induction rest as [|rest IH]; intros Index offset shp strides source r Hr.
  - simpl in *. destruct (gather source _) as [ys|]; [|done].
    now injection Hr as <-.
  - cbn [gathered flat_indices_rec] in *.
    destruct (mapM _ _) as [cs|] eqn:Hm; [|done]. injection Hr as <-.
    apply mapM_Some_1 in Hm. cbn [flat_values]. unfold gather.
    induction Hm as [|i c l cs Hc _ IHl]; [done|].
    cbn [mbind list_bind]. apply mapM_app_Some; [|exact IHl].
    apply (IH _ _ _ _ _ _ Hc).
Qed.

End GatherFlat.

(** ** A static extent the tensor exceeds *)

Section Overflow.
Context {Scalar : Type}.

(** A loop over more components than the static array has runs into
    [coeff] past the extent. *)
Lemma gather_loop_overflow (g : Z -> array Scalar -> option (array Scalar)) :
  forall k i0 (l : list (array Scalar)),
  0 <= i0 <= Z.of_nat (length l) ->
  Z.of_nat (length l) < i0 + Z.of_nat k ->
  for_loop k i0
    (fun i target => c ← coeff target i; c' ← g i c; set_coeff target i c')
    (StaticArray l) = None.
Proof.
  induction k as [|k IH]; intros i0 l Hi Hk; [lia|].
  cbn [for_loop].
  destruct (decide (i0 = Z.of_nat (length l))) as [->|Hne].
  - simpl. rewrite decide_True by lia. rewrite Nat2Z.id.
    now rewrite lookup_ge_None_2 by lia.
  - destruct (coeff (StaticArray l) i0) as [c|]; [|done].
    cbn [mbind option_bind]. destruct (g i0 c) as [c'|]; [|done].
    cbn [mbind option_bind set_coeff]. rewrite decide_True by lia.
    cbn [mbind option_bind]. apply IH; rewrite length_insert; lia.
Qed.

Lemma copy_array_gather_overflow offset shp strides
  (source : mapped_array Scalar) (l : list (array Scalar)) :
  (1 < length shp)%nat ->
  Z.of_nat (length l) < nth 0 shp 0 ->
  copy_array_gather 0 offset shp strides source (StaticArray l) = None.
Proof.
  intros Hdim Hext. unfold copy_array_gather. rewrite decide_True by lia.
  rewrite copy_array_gather_rec_contract.
  replace (length shp - 1 - 0)%nat with (S (length shp - 2)) by lia.
  cbn [gather_contract]. apply gather_loop_overflow; lia.
Qed.

End Overflow.

(** ** The layout loop of the NumPy conversion *)

Section NumPyLayout.

Lemma numpy_layout_app k : forall l r st,
  (k <= length l)%nat -> numpy_layout k (l ++ r) st = numpy_layout k l st.
Proof.
  induction k as [|k IH]; intros l r [[size stride] strides] Hk; [done|].
  cbn [numpy_layout]. rewrite app_nth1 by lia. apply IH. lia.
Qed.

Lemma numpy_layout_frame k : forall l size stride pre suf,
  (k <= length pre)%nat ->
  numpy_layout k l (size, stride, pre ++ suf)
  = let '(a, b, c) := numpy_layout k l (size, stride, pre) in (a, b, c ++ suf).
Proof.
  induction k as [|k IH]; intros l size stride pre suf Hk; [done|].
  cbn [numpy_layout]. rewrite insert_app_l by lia. apply IH.
  rewrite length_insert. lia.
Qed.

Lemma capacity_snoc l x : capacity (l ++ [x]) = Z.max x 1 * capacity l.
Proof.
  unfold capacity. rewrite foldr_snoc.
  change (foldr (fun n acc => Z.max n 1 * acc) ?a l)
    with (foldr (fun n acc => Z.max n 1 * acc) a l).
  rewrite capacity_scale. unfold capacity. lia.
Qed.

Lemma product_snoc l x : foldr Z.mul 1 (l ++ [x]) = x * foldr Z.mul 1 l.
Proof. rewrite foldr_snoc, foldr_mul_scale. lia. Qed.

(** Without overflow the loop leaves the element count, the size in
    bytes and, in [strides], the byte strides of a contiguous array. *)
Lemma numpy_layout_spec l : forall size stride init,
  length init = length l ->
  (forall j, (1 <= j < length l)%nat -> 1 <= nth j l 0) ->
  0 <= nth 0 l 0 ->
  0 <= size -> 0 <= stride ->
  size * capacity l < 2 ^ 64 -> stride * capacity l < 2 ^ 64 ->
  numpy_layout (length l) l (size, stride, init)
  = (size * foldr Z.mul 1 l, stride * foldr Z.mul 1 l,
     (fun v => stride * v) <$> contiguous_strides l).
Proof.
  induction l as [|x l IH] using rev_ind;
    intros size stride init Hlen Hpos H0 Hsize Hstride Hfs Hfb.
  - destruct init; [|done]. simpl. do 2 f_equal; lia.
  - destruct init as [|y init _] using rev_ind;
      [rewrite length_app in Hlen; simpl in Hlen; lia|].
    rewrite !length_app in Hlen. simpl in Hlen.
    assert (Hli : length init = length l) by lia.
    rewrite length_app. simpl. rewrite Nat.add_1_r. cbn [numpy_layout].
    rewrite nth_middle.
    rewrite insert_app_r_alt by lia. rewrite Hli, Nat.sub_diag. cbn [insert list_insert].
    rewrite capacity_snoc in Hfs, Hfb.
    pose proof (capacity_pos l) as Hc.
    assert (Hx : 0 <= x /\ (l = [] \/ 1 <= x)).
    { destruct l as [|a l].
      - simpl in H0. split; [lia|by left].
      - specialize (Hpos (length (a :: l))).
        rewrite nth_middle in Hpos. rewrite length_app in Hpos.
        simpl in Hpos. split; [|right]; apply Z.le_trans with 1; try lia;
          apply Hpos; lia. }
    destruct Hx as [Hx0 Hx1].
    assert (Hmx : x <= Z.max x 1) by lia.
    assert (Hsx : 0 <= size * x < 2 ^ 64) by nia.
    assert (Hbx : 0 <= stride * x < 2 ^ 64) by nia.
    unfold to_size_t. rewrite !Z.mod_small by done.
    rewrite numpy_layout_app by lia. rewrite numpy_layout_frame by lia.
    rewrite (IH (size * x) (stride * x) init); try done; try nia.
    + rewrite product_snoc, contiguous_strides_snoc, fmap_app.
      f_equal; [f_equal; lia|]. f_equal.
      * rewrite <- list_fmap_compose. destruct Hx1 as [->|Hx1]; [done|].
        apply list_fmap_ext. intros _ v _. simpl. rewrite Z.max_l by lia. lia.
      * simpl. f_equal. lia.
    + intros j Hj. specialize (Hpos j). rewrite app_nth1 in Hpos by lia.
      apply Hpos. rewrite length_app. simpl. lia.
    + destruct l as [|a l]; [simpl; lia|]. exact H0.
Qed.

End NumPyLayout.

(** ** The conversion to NumPy on regular arrays *)

Section NumPyRun.
Context {Scalar : Type}.

Lemma capacity_rev (l : list Z) : capacity (rev l) = capacity l.
Proof.
  induction l as [|x l IH]; [done|]. simpl. rewrite capacity_snoc, IH.
  reflexivity.
Qed.

Lemma linear_scale c idx : forall Index strides,
  linear idx Index ((fun v => c * v) <$> strides)
  = c * linear idx Index strides.
Proof.
  induction idx as [|i idx IH]; intros Index strides; cbn [linear]; [lia|].
  rewrite IH. replace 0 with (c * 0) at 1 by lia.
  change ((fun v => c * v) <$> strides) with (map (fun v => c * v) strides).
  rewrite map_nth. lia.
Qed.

(** The byte strides divided by the item size are the element strides. *)
Lemma byte_strides_elements c (l : list Z) :
  0 < c -> (fun s => s / c) <$> ((fun v => c * v) <$> l) = l.
Proof.
  intros Hc. rewrite <- list_fmap_compose. rewrite <- (list_fmap_id l) at 2.
  apply list_fmap_ext. intros _ v _. simpl.
  rewrite Z.mul_comm. apply Z.div_mul. lia.
Qed.

(** The layout loop on the reversed shape of an array. *)
Lemma numpy_layout_shape Scalar_t (a : array Scalar) :
  0 < sizeof Scalar_t ->
  sizeof Scalar_t * capacity (shape a) < 2 ^ 64 ->
  numpy_layout (length (shape a)) (rev (shape a))
    (1, sizeof Scalar_t, replicate (length (shape a)) 0)
  = (foldr Z.mul 1 (shape a), sizeof Scalar_t * foldr Z.mul 1 (shape a),
     (fun v => sizeof Scalar_t * v) <$> contiguous_strides (rev (shape a))).
Proof.
  intros Hsz Hfit.
  pose proof (capacity_pos (shape a)) as Hc.
  pose proof (shape_length_pos a) as Hlen.
  pose proof (numpy_layout_spec (rev (shape a)) 1 (sizeof Scalar_t)
                (replicate (length (shape a)) 0)) as H.
  rewrite length_rev, capacity_rev, product_rev in H.
  rewrite H; [f_equal; f_equal; lia| | | |lia|lia|nia|done].
  - now rewrite length_replicate.
  - intros j Hj. rewrite rev_nth by lia. apply shape_outer_positive. lia.
  - rewrite rev_nth by lia. apply shape_nonneg.
Qed.

(** [enoki_to_numpy] on a regular array whose layout spans at most 2^32
    cells and whose size in bytes fits a [size_t], run forward. *)
Lemma enoki_to_numpy_regular Scalar_t init (a : array Scalar) eval :
  0 < sizeof Scalar_t ->
  sizeof Scalar_t * capacity (shape a) < 2 ^ 64 ->
  regular a = true -> capacity (shape a) <= 2 ^ 32 ->
  let bytes := sizeof Scalar_t * foldr Z.mul 1 (shape a) in
  exists target',
    copy_array_scatter 0 0 (shape a) (dense_strides 1 (shape a)) a
      (Mapped (CUDAManagedBuffer (sizeof Scalar_t) init bytes) bytes)
    = Some target'
    /\ enoki_to_numpy Scalar_t init a eval
       = ([map_memory bytes;
           scatter_memory (shape a) (dense_strides 1 (shape a))]
          ++ (if eval then [cuda_eval] else []),
          Ok {| nd_itemsize := sizeof Scalar_t;
                nd_shape := rev (shape a);
                nd_strides := (fun v => sizeof Scalar_t * v)
                                <$> contiguous_strides (rev (shape a));
                nd_data := m_cells target';
                nd_base_bytes := bytes |})
    /\ forall m t0,
         (forall j, j ∈ flat_indices 0 (shape a) (dense_strides 1 (shape a)) ->
            m_cells m j = m_cells target' j) ->
         has_static_shape (length (shape a) - 1) 0 (shape a) t0 = true ->
         copy_array_gather 0 0 (shape a) (dense_strides 1 (shape a)) m t0
         = Some a.
Proof.
  intros Hsz Hfit Hreg Hcap bytes.
  destruct (regular_dense a Hreg Hcap) as (Hnd & Hin & Hshp & Hstr).
  pose proof (shape_length_pos a) as Hlen.
  destruct (roundtrip_contract (length (shape a) - 1) 0 0 (shape a)
              (dense_strides 1 (shape a)) a
              (Mapped (CUDAManagedBuffer (sizeof Scalar_t) init bytes) bytes))
    as (target' & Hs & Hg); [exact Hreg|exact Hnd| |].
  { apply Forall_forall. intros j Hj. apply Hin in Hj. simpl.
    unfold CUDAManagedBuffer. rewrite decide_True; [eauto|].
    unfold bytes. split; [lia|]. nia. }
  exists target'.
  assert (Hsc : copy_array_scatter 0 0 (shape a) (dense_strides 1 (shape a)) a
                  (Mapped (CUDAManagedBuffer (sizeof Scalar_t) init bytes) bytes)
                = Some target').
  { unfold copy_array_scatter. rewrite decide_True by done.
    rewrite copy_array_scatter_rec_contract.
    now replace (length (shape a) - 1 - 0)%nat
      with (length (shape a) - 1)%nat by lia. }
  split; [exact Hsc|]. split.
  - unfold enoki_to_numpy. rewrite numpy_layout_shape by done.
    cbv zeta beta iota. rewrite byte_strides_elements by done.
    rewrite contiguous_strides_dense. fold bytes.
    cbn [mbind M_bind tell defined]. rewrite Hsc. cbn.
    now destruct eval.
  - intros m t0 Hm Ht0. unfold copy_array_gather.
    rewrite decide_True by done. rewrite copy_array_gather_rec_contract.
    replace (length (shape a) - 1 - 0)%nat
      with (length (shape a) - 1)%nat by lia.
    now apply Hg.
Qed.

End NumPyRun.

(** ** Memories that agree cell by cell *)

Section Pointwise.
Context {Scalar : Type}.

Lemma scatter_lanes_ext (xs : list Scalar) : forall index cells cells2,
  (forall j, cells j = cells2 j) ->
  match scatter_lanes cells xs index, scatter_lanes cells2 xs index with
  | Some c, Some c2 => forall j, c j = c2 j
  | None, None => True
  | _, _ => False
  end.
Proof.
  induction xs as [|x xs IH]; intros [|j index] cells cells2 Hc; try done.
  cbn [scatter_lanes]. rewrite <- Hc. destruct (cells j); [|done].
  apply IH. intros k. unfold store. destruct (decide (k = j)); [done|apply Hc].
Qed.

(** Writing back what was read leaves every cell as it was. *)
Lemma scatter_lanes_restore (m : memory Scalar) : forall index xs cells,
  mapM m index = Some xs ->
  (forall j, cells j = m j) ->
  exists cells', scatter_lanes cells xs index = Some cells'
    /\ forall j, cells' j = m j.
Proof.
  induction index as [|j index IH]; intros xs cells Hx Hc.
  - injection Hx as <-. now exists cells.
  - apply mapM_Some_1 in Hx. destruct xs as [|x xs]; [by inversion Hx|].
    apply Forall2_cons_1 in Hx as [Hj Hx]. apply mapM_Some_2 in Hx.
    cbn [scatter_lanes]. rewrite Hc, Hj. apply IH; [done|].
    intros k. unfold store. destruct (decide (k = j)) as [->|]; [done|apply Hc].
Qed.

End Pointwise.

(** ** The element count of a mapping, and of a dense traversal *)

Section Counting.

Lemma element_count_from (shp : list Z) : forall acc,
  to_size_t acc = acc ->
  foldl (fun size i => to_size_t (size * i)) acc shp
  = to_size_t (acc * foldr Z.mul 1 shp).
Proof.
  induction shp as [|x shp IH]; intros acc Hacc; simpl.
  - now rewrite Z.mul_1_r.
  - rewrite IH by (unfold to_size_t; apply Z.mod_mod; lia).
    unfold to_size_t. rewrite Z.mul_mod_idemp_l by lia. f_equal. lia.
Qed.

Lemma element_count_product (shp : list Z) :
  element_count shp = to_size_t (foldr Z.mul 1 shp).
Proof.
  unfold element_count. rewrite element_count_from by done.
  f_equal. lia.
Qed.

Lemma length_bind_const {A B} (f : A -> list B) n : forall l : list A,
  (forall x, x ∈ l -> length (f x) = n) ->
  length (l ≫= f) = (length l * n)%nat.
Proof.
  induction l as [|x l IH]; intros H; [done|].
  rewrite bind_cons, length_app, IH, H; [simpl; lia|apply list_elem_of_here|].
  intros y Hy. apply H. now apply list_elem_of_further.
Qed.

(** A dense traversal addresses as many cells as the extents multiply
    to. *)
Lemma length_dense_flat_indices rest : forall shp p offset,
  length shp = S rest ->
  (forall d, 0 <= nth d shp 0) ->
  nth rest shp 0 < 2 ^ 32 ->
  length (flat_indices_rec rest 0 offset shp (dense_strides p shp))
  = Z.to_nat (foldr Z.mul 1 shp).
Proof.
  induction rest as [|rest IH]; intros shp p offset Hlen Hnn Hin.
  - destruct shp as [|s [|? ?]]; try done. simpl in Hin |- *.
    pose proof (Hnn 0%nat) as Hs. simpl in Hs.
    unfold innermost_index, fmadd, arange.
    rewrite !length_fmap, length_seqZ, to_uint32_small by lia.
    f_equal. lia.
  - destruct shp as [|s shp]; [done|]. simpl in Hlen.
    cbn [dense_strides flat_indices_rec nth foldr].
    pose proof (Hnn 0%nat) as Hs. simpl in Hs.
    rewrite (length_bind_const _ (Z.to_nat (foldr Z.mul 1 shp))).
    + rewrite length_seqZ. rewrite Z2Nat.inj_mul; [done|lia|].
      apply product_le_capacity, Forall_forall. intros x Hx.
      apply list_elem_of_lookup in Hx as [d Hd].
      specialize (Hnn (S d)). simpl in Hnn. now rewrite nth_lookup, Hd in Hnn.
    + intros i _. rewrite flat_indices_rec_shift. apply IH; [lia| |done].
      intros d. apply (Hnn (S d)).
Qed.

(** Pairwise distinct indices below [n], [n] of them, are all the indices
    below [n]. *)
Lemma NoDup_range_full (l : list Z) n :
  NoDup l -> (forall j, j ∈ l -> 0 <= j < n) -> length l = Z.to_nat n ->
  forall j, 0 <= j < n -> j ∈ l.
Proof.
  intros Hnd Hin Hlen j Hj.
  assert (Hsub : l ⊆+ seqZ 0 n).
  { apply NoDup_submseteq; [done|]. intros x Hx. apply elem_of_seqZ.
    specialize (Hin x Hx). lia. }
  apply submseteq_length_Permutation in Hsub;
    [|rewrite length_seqZ; lia].
  rewrite Hsub. apply elem_of_seqZ. lia.
Qed.

End Counting.

(** * The copies, cell by cell *)

Lemma nth_nonneg (shp : list Z) :
  Forall (fun s => 0 <= s) shp -> forall d, 0 <= nth d shp 0.
Proof.
  intros H d. destruct (shp !! d) as [s|] eqn:E.
  - rewrite nth_lookup, E. simpl. rewrite Forall_forall in H. apply H.
    apply list_elem_of_lookup. eauto.
  - rewrite nth_lookup, E. done.
Qed.

(** X1: a scatter of an array that has the given shape is one flat
    scatter: the array's elements, in nesting order, written to the flat
    indices of the traversal, in order. *)
Theorem copy_array_scatter_flat {Scalar} (offset : Z) (shp strides : list Z)
  (a : array Scalar) (target : mapped_array Scalar) :
  (0 < length shp)%nat ->
  has_shape (length shp - 1) 0 shp a = true ->
  copy_array_scatter 0 offset shp strides a target
  = scatter target (flat_values a) (flat_indices offset shp strides).
Proof.
  intros Hlen Ha. rewrite copy_array_scatter_contract by done.
  rewrite Nat.sub_0_r. now apply scatter_contract_flat.
Qed.

Lemma copy_array_scatter_flat_witness :
  copy_array_scatter 0 0 [2; 3] [1; 2] array_2x3 (allocation 6 (fun _ => 0))
  = scatter (allocation 6 (fun _ => 0)) [1; 2; 3; 4; 5; 6] [0; 2; 4; 1; 3; 5].
Proof.
  apply (copy_array_scatter_flat 0 [2; 3] [1; 2] array_2x3
           (allocation 6 (fun _ => 0))); [simpl; lia|reflexivity].
Defined.

(** X2: a scatter of an array that has the given shape returns exactly
    when every flat index of the traversal lies in the allocation behind
    the mapped pointer; otherwise it writes outside it. *)
Theorem copy_array_scatter_returns {Scalar} (offset : Z) (shp strides : list Z)
  (a : array Scalar) (target : mapped_array Scalar) :
  (0 < length shp)%nat ->
  has_shape (length shp - 1) 0 shp a = true ->
  is_Some (copy_array_scatter 0 offset shp strides a target)
  <-> Forall (fun j => is_Some (m_cells target j))
        (flat_indices offset shp strides).
Proof.
  intros Hlen Ha. rewrite copy_array_scatter_contract by done.
  rewrite Nat.sub_0_r, scatter_contract_flat by done.
  rewrite scatter_is_Some. unfold flat_indices. split; [now intros [_ H]|].
  intros H. split; [|done]. now apply length_flat_values.
Qed.

Lemma copy_array_scatter_returns_witness :
  is_Some (copy_array_scatter 0 0 [2; 3] [1; 2] array_2x3
             (allocation 6 (fun _ => 0)))
  /\ ~ is_Some (copy_array_scatter 0 0 [2; 3] [1; 2] array_2x3
                  (allocation 5 (fun _ => 0))).
Proof.
  split.
  - apply (copy_array_scatter_returns 0 [2; 3] [1; 2] array_2x3);
      [simpl; lia|reflexivity|].
    repeat constructor; exists 0; reflexivity.
  - intros H.
    apply (copy_array_scatter_returns 0 [2; 3] [1; 2] array_2x3) in H;
      [|simpl; lia|reflexivity].
    rewrite Forall_forall in H. destruct (H 5) as [x Hx].
    + do 5 apply list_elem_of_further. apply list_elem_of_here.
    + discriminate Hx.
Defined.

(** X3: when the flat indices of the traversal are pairwise distinct, a
    scatter that returns has left every element of the array in the cell
    at its flat index, (offset + sum of i_d * stride[d]) mod 2^32. *)
Theorem copy_array_scatter_stores {Scalar} (offset : Z) (shp strides : list Z)
  (a : array Scalar) (target target' : mapped_array Scalar) :
  (0 < length shp)%nat ->
  has_shape (length shp - 1) 0 shp a = true ->
  NoDup (flat_indices offset shp strides) ->
  copy_array_scatter 0 offset shp strides a target = Some target' ->
  forall idx, length idx = length shp -> visited idx 0 shp ->
    is_Some (element idx a)
    /\ m_cells target' (to_uint32 (offset + linear idx 0 strides))
       = element idx a.
Proof.
  intros Hlen Ha Hnd Hs idx Hidx Hvis.
  rewrite copy_array_scatter_contract, Nat.sub_0_r in Hs by done.
  assert (Hvalid : Forall (fun j => is_Some (m_cells target j))
                     (flat_indices offset shp strides)).
  { assert (H : is_Some (scatter_contract to_uint32 (length shp - 1) 0 offset
                           shp strides a target)) by (rewrite Hs; eauto).
    rewrite scatter_contract_flat in H by done.
    now apply scatter_is_Some in H as [_ H]. }
  destruct (roundtrip_contract (length shp - 1) 0 offset shp strides a target
              Ha Hnd Hvalid) as (tgt & Hs' & Hg).
  rewrite Hs in Hs'. injection Hs' as <-.
  specialize (Hg target' a (fun _ _ => eq_refl) (has_shape_static _ _ _ _ Ha)).
  rewrite gather_contract_gathered in Hg by now apply has_shape_static.
  destruct (gathered_element _ _ _ _ _ _ _ idx Hg) as [H1 H2];
    [lia|done|]. split; [done|]. now rewrite H2.
Qed.

Lemma copy_array_scatter_stores_witness :
  exists target',
    copy_array_scatter 0 0 [2; 3] [1; 2] array_2x3 (allocation 6 (fun _ => 0))
    = Some target'
    /\ m_cells target' 5 = Some 6.
Proof.
  assert (H : match copy_array_scatter 0 0 [2; 3] [1; 2] array_2x3
                      (allocation 6 (fun _ => 0)) with
              | Some _ => True
              | None => False
              end) by (vm_compute; exact I).
  destruct (copy_array_scatter 0 0 [2; 3] [1; 2] array_2x3
              (allocation 6 (fun _ => 0))) as [target'|] eqn:E;
    [|contradiction].
  exists target'. split; [reflexivity|].
  refine (proj2 (copy_array_scatter_stores 0 [2; 3] [1; 2] array_2x3
                   (allocation 6 (fun _ => 0)) target' _ _ _ E [1; 2] _ _));
    [simpl; lia|reflexivity| |reflexivity
    |change (0 <= 1 < 2 /\ 0 <= 2 < 3); lia].
  apply (bool_decide_unpack _). vm_compute. exact I.
Defined.

(** X4: what a gather returns depends on the source memory only at the
    flat indices of the traversal, and on the target only through its
    static extents: whatever the target held before is overwritten. *)
Theorem copy_array_gather_independent {Scalar} (offset : Z)
  (shp strides : list Z) (source source' : mapped_array Scalar)
  (target target' : array Scalar) :
  (0 < length shp)%nat ->
  has_static_shape (length shp - 1) 0 shp target = true ->
  has_static_shape (length shp - 1) 0 shp target' = true ->
  (forall j, j ∈ flat_indices offset shp strides ->
     m_cells source j = m_cells source' j) ->
  copy_array_gather 0 offset shp strides source target
  = copy_array_gather 0 offset shp strides source' target'.
Proof.
  intros Hlen Ht Ht' Hm.
  rewrite !copy_array_gather_gathered by (try done; now rewrite Nat.sub_0_r).
  rewrite Nat.sub_0_r. now apply gathered_ext.
Qed.

Lemma copy_array_gather_independent_witness :
  copy_array_gather 0 0 [2; 3] [1; 2]
    (Mapped (mem_of_list [1; 4; 2; 5; 3; 6]) 6)
    (StaticArray [DynArray []; DynArray []])
  = copy_array_gather 0 0 [2; 3] [1; 2]
      (Mapped (mem_of_list [1; 4; 2; 5; 3; 6; 99]) 7)
      (StaticArray [DynArray [7]; DynArray [8; 9]]).
Proof.
  apply (copy_array_gather_independent 0 [2; 3] [1; 2]);
    [simpl; lia|reflexivity|reflexivity|].
  intros j Hj. change (flat_indices 0 [2; 3] [1; 2]) with [0; 2; 4; 1; 3; 5] in Hj.
  repeat (apply elem_of_cons in Hj as [->|Hj]; [reflexivity|]).
  now apply elem_of_nil in Hj.
Defined.

(** X5: a gather into a target with the static extents of the shape
    returns exactly when every flat index of the traversal lies in the
    allocation behind the mapped pointer; otherwise it reads outside
    it. *)
Theorem copy_array_gather_returns {Scalar} (offset : Z) (shp strides : list Z)
  (source : mapped_array Scalar) (target : array Scalar) :
  (0 < length shp)%nat ->
  has_static_shape (length shp - 1) 0 shp target = true ->
  is_Some (copy_array_gather 0 offset shp strides source target)
  <-> Forall (fun j => is_Some (m_cells source j))
        (flat_indices offset shp strides).
Proof.
  intros Hlen Ht.
  rewrite copy_array_gather_gathered by (try done; now rewrite Nat.sub_0_r).
  rewrite Nat.sub_0_r. apply gathered_is_Some.
Qed.

Lemma copy_array_gather_returns_witness :
  is_Some (copy_array_gather 0 0 [2; 3] [1; 2]
             (Mapped (mem_of_list [1; 4; 2; 5; 3; 6]) 6)
             (StaticArray [DynArray []; DynArray []]))
  /\ ~ is_Some (copy_array_gather 0 0 [2; 3] [1; 2]
                  (Mapped (mem_of_list [1; 4; 2; 5; 3]) 5)
                  (StaticArray [DynArray []; DynArray []])).
Proof.
  split.
  - apply (copy_array_gather_returns 0 [2; 3] [1; 2]);
      [simpl; lia|reflexivity|].
    repeat constructor; eexists; reflexivity.
  - intros H.
    apply (copy_array_gather_returns 0 [2; 3] [1; 2]) in H;
      [|simpl; lia|reflexivity].
    rewrite Forall_forall in H. destruct (H 5) as [x Hx].
    + do 5 apply list_elem_of_further. apply list_elem_of_here.
    + discriminate Hx.
Defined.

(** X6: a gather that returns has put, at every position of the shape,
    the cell of the source at the position's flat index,
    (offset + sum of i_d * stride[d]) mod 2^32; and its result has the
    given shape. *)
Theorem copy_array_gather_reads {Scalar} (offset : Z) (shp strides : list Z)
  (source : mapped_array Scalar) (target r : array Scalar) :
  (0 < length shp)%nat ->
  has_static_shape (length shp - 1) 0 shp target = true ->
  copy_array_gather 0 offset shp strides source target = Some r ->
  (forall idx, length idx = length shp -> visited idx 0 shp ->
     is_Some (element idx r)
     /\ element idx r
        = m_cells source (to_uint32 (offset + linear idx 0 strides)))
  /\ (Forall (fun s => 0 <= s) shp -> nth (length shp - 1) shp 0 < 2 ^ 32 ->
      has_shape (length shp - 1) 0 shp r = true).
Proof.
  intros Hlen Ht Hr.
  rewrite copy_array_gather_gathered, Nat.sub_0_r in Hr
    by (try done; now rewrite Nat.sub_0_r).
  split.
  - intros idx Hidx Hvis.
    apply (gathered_element _ _ _ _ _ _ _ idx Hr); [lia|done].
  - intros Hnn Hin.
    apply (gathered_has_shape _ _ _ _ _ _ _ Hr); [now apply nth_nonneg|done].
Qed.

Lemma copy_array_gather_reads_witness :
  exists r,
    copy_array_gather 0 0 [2; 3] [1; 2]
      (Mapped (mem_of_list [1; 4; 2; 5; 3; 6]) 6)
      (StaticArray [DynArray []; DynArray []]) = Some r
    /\ element [1; 2] r = Some 6.
Proof.
  eexists. split; [vm_compute; reflexivity|].
  refine (proj2 (proj1 (copy_array_gather_reads 0 [2; 3] [1; 2]
                          (Mapped (mem_of_list [1; 4; 2; 5; 3; 6]) 6)
                          (StaticArray [DynArray []; DynArray []]) _ _ _ _)
                   [1; 2] _ _));
    [simpl; lia|reflexivity|vm_compute; reflexivity|reflexivity|].
  change (0 <= 1 < 2 /\ 0 <= 2 < 3). lia.
Defined.

(** X7: the elements of what a gather returns, in nesting order, are the
    cells at the flat indices of the traversal, in order: gather and
    scatter walk memory in the same order. *)
Theorem copy_array_gather_flat {Scalar} (offset : Z) (shp strides : list Z)
  (source : mapped_array Scalar) (target r : array Scalar) :
  (0 < length shp)%nat ->
  has_static_shape (length shp - 1) 0 shp target = true ->
  copy_array_gather 0 offset shp strides source target = Some r ->
  gather source (flat_indices offset shp strides) = Some (flat_values r).
Proof.
  intros Hlen Ht Hr.
  rewrite copy_array_gather_gathered, Nat.sub_0_r in Hr
    by (try done; now rewrite Nat.sub_0_r).
  now apply gathered_flat.
Qed.

Lemma copy_array_gather_flat_witness :
  gather (Mapped (mem_of_list [1; 4; 2; 5; 3; 6]) 6) [0; 2; 4; 1; 3; 5]
  = Some [1; 2; 3; 4; 5; 6].
Proof.
  apply (copy_array_gather_flat 0 [2; 3] [1; 2]
           (Mapped (mem_of_list [1; 4; 2; 5; 3; 6]) 6)
           (StaticArray [DynArray []; DynArray []]) array_2x3);
    [simpl; lia|reflexivity|vm_compute; reflexivity].
Defined.

(** X8: gather followed by scatter.  Scattering what a gather returned
    back to the memory it was gathered from, with the same offset, shape
    and strides, returns and leaves every cell as it was, whether or not
    flat indices coincide. *)
Theorem gather_scatter_restores {Scalar} (offset : Z) (shp strides : list Z)
  (source : mapped_array Scalar) (target r : array Scalar) :
  (0 < length shp)%nat ->
  Forall (fun s => 0 <= s) shp ->
  nth (length shp - 1) shp 0 < 2 ^ 32 ->
  has_static_shape (length shp - 1) 0 shp target = true ->
  copy_array_gather 0 offset shp strides source target = Some r ->
  exists source',
    copy_array_scatter 0 offset shp strides r source = Some source'
    /\ m_size source' = m_size source
    /\ forall j, m_cells source' j = m_cells source j.
Proof.
  intros Hlen Hnn Hin Ht Hr.
  rewrite copy_array_gather_gathered, Nat.sub_0_r in Hr
    by (try done; now rewrite Nat.sub_0_r).
  assert (Hshape : has_shape (length shp - 1) 0 shp r = true)
    by (apply (gathered_has_shape _ _ _ _ _ _ _ Hr);
        [now apply nth_nonneg|done]).
  rewrite copy_array_scatter_contract, Nat.sub_0_r by done.
  rewrite scatter_contract_flat by done.
  apply gathered_flat in Hr. unfold gather in Hr.
  destruct (scatter_lanes_restore (m_cells source) _ _ (m_cells source) Hr)
    as (cells' & Hc & Hsame); [done|].
  unfold scatter. rewrite Hc. cbn. eexists. split; [reflexivity|]. done.
Qed.

Lemma gather_scatter_restores_witness :
  exists source',
    copy_array_scatter 0 0 [2; 3] [1; 0]
      (StaticArray [DynArray [1; 1; 1]; DynArray [4; 4; 4]])
      (Mapped (mem_of_list [1; 4]) 2) = Some source'
    /\ m_size source' = 2
    /\ forall j, m_cells source' j = mem_of_list [1; 4] j.
Proof.
  apply (gather_scatter_restores 0 [2; 3] [1; 0]
           (Mapped (mem_of_list [1; 4]) 2)
           (StaticArray [DynArray []; DynArray []])
           (StaticArray [DynArray [1; 1; 1]; DynArray [4; 4; 4]]));
    [simpl; lia|repeat constructor; lia|simpl; lia|reflexivity|].
  vm_compute. reflexivity.
Defined.

(** * The conversions, element by element *)

Section ConversionFacts.
Context {Scalar : Type}.

(** Below static levels that are not empty lies a depth-1 slice, and its
    element count fits the 32-bit lanes. *)
Lemma has_shape_inner rest : forall Index shp (a : array Scalar),
  has_shape rest Index shp a = true ->
  (forall d, (Index <= d < Index + rest)%nat -> 1 <= nth d shp 0) ->
  nth (Index + rest) shp 0 < 2 ^ 32.
Proof.
  induction rest as [|rest IH]; intros Index shp [xs|cs] Ha Hpos; try done.
  - simpl in Ha. apply bool_decide_eq_true in Ha. rewrite Nat.add_0_r. lia.
  - apply has_shape_coeffs in Ha as [Hlen Hcs].
    destruct cs as [|c cs].
    { specialize (Hpos Index ltac:(lia)). simpl in Hlen. lia. }
    replace (Index + S rest)%nat with (S Index + rest)%nat by lia.
    apply (IH _ _ c); [now apply (Hcs 0%nat)|]. intros d Hd. apply Hpos. lia.
Qed.

Lemma regular_inner (a : array Scalar) :
  regular a = true -> nth (length (shape a) - 1) (shape a) 0 < 2 ^ 32.
Proof.
  intros H. pose proof (shape_length_pos a).
  change (length (shape a) - 1)%nat with (0 + (length (shape a) - 1))%nat.
  apply (has_shape_inner _ _ _ a H). intros d Hd.
  apply shape_outer_positive. lia.
Qed.

(** The dense layout of a regular array leaves no cell of its span
    out. *)
Lemma regular_dense_cover (a : array Scalar) :
  regular a = true -> capacity (shape a) <= 2 ^ 32 ->
  forall j, 0 <= j < foldr Z.mul 1 (shape a) ->
    j ∈ flat_indices 0 (shape a) (dense_strides 1 (shape a)).
Proof.
  intros Hreg Hcap. destruct (regular_dense a Hreg Hcap) as (Hnd & Hin & _ & _).
  apply NoDup_range_full; [done|done|]. unfold flat_indices.
  pose proof (shape_length_pos a).
  apply length_dense_flat_indices; [lia| |now apply regular_inner].
  intros d. apply shape_nonneg.
Qed.

Lemma regular_linear_bound (a : array Scalar) idx :
  capacity (shape a) <= 2 ^ 32 ->
  length idx = length (shape a) -> visited idx 0 (shape a) ->
  0 <= linear idx 0 (dense_strides 1 (shape a)) < foldr Z.mul 1 (shape a)
  /\ foldr Z.mul 1 (shape a) <= 2 ^ 32.
Proof.
  intros Hcap Hidx Hvis.
  destruct (linear_dense_bound idx (shape a) 1) as [H0 H1];
    [done|intros d; apply shape_nonneg|done|lia|].
  assert (Hall : Forall (fun s => 0 <= s) (shape a)).
  { apply Forall_forall. intros s Hs.
    apply list_elem_of_lookup in Hs as [d Hd].
    pose proof (shape_nonneg d a) as Hnn. now rewrite nth_lookup, Hd in Hnn. }
  pose proof (product_le_capacity _ Hall). lia.
Qed.

(** Once the scatter of a dense layout can be gathered back, every
    element sits in the cell at its linear index. *)
Lemma regular_elements (a : array Scalar) (target' : mapped_array Scalar) idx :
  regular a = true -> capacity (shape a) <= 2 ^ 32 ->
  copy_array_gather 0 0 (shape a) (dense_strides 1 (shape a)) target' a
  = Some a ->
  length idx = length (shape a) -> visited idx 0 (shape a) ->
  is_Some (element idx a)
  /\ m_cells target' (linear idx 0 (dense_strides 1 (shape a)))
     = element idx a.
Proof.
  intros Hreg Hcap Hg Hidx Hvis.
  pose proof (shape_length_pos a) as Hlen.
  rewrite copy_array_gather_gathered, Nat.sub_0_r in Hg;
    [|done|rewrite Nat.sub_0_r; now apply has_shape_static].
  destruct (gathered_element _ _ _ _ _ _ _ idx Hg) as [H1 H2]; [lia|done|].
  split; [done|]. rewrite H2. f_equal. rewrite Z.add_0_l.
  symmetry. apply to_uint32_small.
  destruct (regular_linear_bound a idx Hcap Hidx Hvis). lia.
Qed.


(** Whatever the array, [enoki_to_torch] either stops before touching
    memory or maps the new tensor and scatters once, and flushes at most
    once after that. *)
Lemma enoki_to_torch_log Scalar_t init (a : array Scalar) eval :
  (enoki_to_torch Scalar_t init a eval).1 = []
  \/ exists rest,
       (enoki_to_torch Scalar_t init a eval).1
       = map_memory (element_count (shape a))
         :: scatter_memory (shape a) (rev (contiguous_strides (rev (shape a))))
         :: rest
       /\ (rest = [] \/ rest = [cuda_eval]).
Proof.
  unfold enoki_to_torch.
  destruct (torch_dtype Scalar_t) as [dt| |]; cbn; [|now left..].
  unfold cast_size_t_array. destruct (decide _); cbn; [|now left].
  right.
  destruct (copy_array_scatter _ _ _ _ _ _) as [target'|]; cbn;
    [|exists []; split; [done|now left]].
  destruct eval; cbn; eexists; split; try done; [now right|now left].
Qed.

End ConversionFacts.

(** X9: the layout [enoki_to_torch] scatters a regular array with (at most
    2^32 cells) sends distinct positions to distinct cells, covers the
    cells of the new tensor exactly, and never wraps in 32 bits: the flat
    index of a position is its linear index under the reversed strides
    of the tensor. *)
Theorem enoki_to_torch_layout {Scalar} Scalar_t init (a : array Scalar) eval
  (shp strides : list Z) :
  regular a = true -> capacity (shape a) <= 2 ^ 32 ->
  scatter_memory shp strides ∈ (enoki_to_torch Scalar_t init a eval).1 ->
  shp = shape a
  /\ strides = rev (contiguous_strides (rev shp))
  /\ NoDup (flat_indices 0 shp strides)
  /\ (forall j, j ∈ flat_indices 0 shp strides
                <-> 0 <= j < foldr Z.mul 1 shp)
  /\ (forall idx, length idx = length shp -> visited idx 0 shp ->
        0 <= linear idx 0 strides < foldr Z.mul 1 shp
        /\ to_uint32 (linear idx 0 strides) = linear idx 0 strides).
Proof.
  intros Hreg Hcap Hev.
  assert (Heq : shp = shape a
                /\ strides = rev (contiguous_strides (rev (shape a)))).
  { destruct (enoki_to_torch_log Scalar_t init a eval) as [Hl|(rest & Hl & Hr)];
      rewrite Hl in Hev; [now apply elem_of_nil in Hev|].
    apply elem_of_cons in Hev as [Hev|Hev]; [done|].
    apply elem_of_cons in Hev as [Hev|Hev]; [now injection Hev|].
    destruct Hr as [-> | ->]; [now apply elem_of_nil in Hev|].
    apply elem_of_cons in Hev as [Hev|Hev]; [done|].
    now apply elem_of_nil in Hev. }
  destruct Heq as [-> ->]. rewrite contiguous_strides_dense.
  destruct (regular_dense a Hreg Hcap) as (Hnd & Hin & _ & _).
  repeat split; try done.
  - now apply Hin.
  - now apply Hin.
  - intros Hj. now apply regular_dense_cover.
  - now apply regular_linear_bound.
  - now apply regular_linear_bound.
  - apply to_uint32_small.
    destruct (regular_linear_bound a idx Hcap H H0). lia.
Qed.

Lemma enoki_to_torch_layout_witness :
  NoDup (flat_indices 0 [2; 3] [1; 2])
  /\ (forall j, j ∈ flat_indices 0 [2; 3] [1; 2] <-> 0 <= j < 6).
Proof.
  destruct (enoki_to_torch_layout scalar_float (fun _ => 0) array_2x3 true
              [2; 3] [1; 2]) as (_ & _ & Hnd & Hin & _);
    [reflexivity|by vm_compute| |exact (conj Hnd Hin)].
  assert (H : (enoki_to_torch scalar_float (fun _ => 0) array_2x3 true).1
              = [map_memory 6; scatter_memory [2; 3] [1; 2]; cuda_eval])
    by (vm_compute; reflexivity).
  rewrite H. apply list_elem_of_further, list_elem_of_here.
Defined.

(** X10: [enoki_to_torch] on a regular array of at most 2^32 cells
    returns a tensor with the reversed shape, the dtype of the scalar
    type and contiguous strides, in which the element at position
    (i_0, ..., i_n) of the array is the cell at the sum of
    i_d * stride[n - d]: the tensor's element (i_n, ..., i_0). *)
Theorem enoki_to_torch_elements {Scalar} Scalar_t dt init (a : array Scalar)
  eval :
  torch_dtype Scalar_t = Ok dt ->
  regular a = true -> capacity (shape a) <= 2 ^ 32 ->
  exists log t,
    enoki_to_torch Scalar_t init a eval = (log, Ok t)
    /\ t_shape t = rev (shape a)
    /\ t_dtype t = dt
    /\ t_stride t = contiguous_strides (rev (shape a))
    /\ forall idx, length idx = length (shape a) -> visited idx 0 (shape a) ->
         is_Some (element idx a)
         /\ t_storage t (linear idx 0 (rev (t_stride t))) = element idx a.
Proof.
  intros Hdt Hreg Hcap.
  destruct (enoki_to_torch_regular Scalar_t dt init a eval Hdt Hreg Hcap)
    as (target' & Hsc & Hrun & Hg).
  eexists _, _. split; [exact Hrun|]. cbn [t_shape t_dtype t_stride t_storage].
  repeat split; try done.
  - now apply (regular_elements a target' idx Hreg Hcap (Hg target' a
                 (fun _ _ => eq_refl) (has_shape_static _ _ _ _ Hreg))).
  - rewrite contiguous_strides_dense.
    now apply (regular_elements a target' idx Hreg Hcap (Hg target' a
                 (fun _ _ => eq_refl) (has_shape_static _ _ _ _ Hreg))).
Qed.

Lemma enoki_to_torch_elements_witness :
  exists log t,
    enoki_to_torch scalar_float (fun _ => 0) array_2x3 true = (log, Ok t)
    /\ t_shape t = [3; 2]
    /\ t_storage t 5 = Some 6.
Proof.
  destruct (enoki_to_torch_elements scalar_float "float32" (fun _ => 0)
              array_2x3 true) as (log & t & Hrun & Hshape & _ & Hstride & Hel);
    [reflexivity|reflexivity|by vm_compute|].
  exists log, t. split; [exact Hrun|]. split; [exact Hshape|].
  destruct (Hel [1; 2]) as [_ H];
    [reflexivity|change (0 <= 1 < 2 /\ 0 <= 2 < 3); lia|].
  rewrite Hstride in H. exact H.
Defined.



(** X12: round trip through a tensor.  The tensor [enoki_to_torch] makes
    of a regular array of at most 2^32 cells is accepted by
    [torch_to_enoki] for the array's own type, which maps it, gathers with
    the same shape and strides and returns the array it came from. *)
Theorem torch_roundtrip {Scalar} Scalar_t dt init (a : array Scalar) eval :
  torch_dtype Scalar_t = Ok dt ->
  regular a = true -> capacity (shape a) <= 2 ^ 32 ->
  exists log t,
    enoki_to_torch Scalar_t init a eval = (log, Ok t)
    /\ torch_to_enoki Scalar_t (static_sizes a) t
       = ([map_memory (element_count (shape a));
           gather_memory (shape a) (rev (t_stride t))], Ok a).
Proof.
  intros Hdt Hreg Hcap.
  destruct (enoki_to_torch_regular Scalar_t dt init a eval Hdt Hreg Hcap)
    as (target' & Hsc & Hrun & Hg).
  destruct (regular_dense a Hreg Hcap) as (_ & _ & Hshp & Hstr).
  pose proof (shape_length_pos a) as Hpos.
  assert (Hstatic : length (static_sizes a) = (length (shape a) - 1)%nat).
  { unfold static_sizes. rewrite length_fmap, length_take. lia. }
  eexists _, _. split; [exact Hrun|].
  rewrite (torch_to_enoki_accepted Scalar_t (static_sizes a) _ dt);
    cbn [t_type_name t_shape t_dtype t_stride t_storage]; try done.
  - rewrite rev_involutive, contiguous_strides_dense.
    rewrite (Hg (Mapped (m_cells target') (element_count (shape a)))
               (default_array (static_sizes a))); [done|done|].
    apply (default_array_static (length (shape a) - 1) 0 (shape a));
      [intros d; apply shape_nonneg|lia].
  - rewrite length_rev. lia.
  - now apply Forall_rev.
  - rewrite length_contiguous_strides, length_rev. lia.
  - rewrite <- (rev_involutive (contiguous_strides _)).
    rewrite contiguous_strides_dense. now apply Forall_rev.
Qed.

Lemma torch_roundtrip_witness :
  exists log t,
    enoki_to_torch scalar_bool (fun _ => 0) array_2x3 true = (log, Ok t)
    /\ torch_to_enoki scalar_bool [2%nat] t
       = ([map_memory 6; gather_memory [2; 3] (rev (t_stride t))],
          Ok array_2x3).
Proof.
  apply (torch_roundtrip scalar_bool "uint8" (fun _ => 0) array_2x3 true);
    [reflexivity|reflexivity|by vm_compute].
Defined.

(** X13: for a scalar type that has a dtype, [torch_to_enoki] throws
    [reference_cast_error] exactly when the object's type name lacks
    "Tensor", or its rank is not the depth of the array type, or its dtype
    is not the one of the scalar type; and whatever it throws, it throws
    before any memory is mapped or read. *)
Theorem torch_to_enoki_throws {Scalar} Scalar_t static (src : tensor Scalar)
  dt :
  torch_dtype Scalar_t = Ok dt ->
  ((torch_to_enoki Scalar_t static src).2 = Throw reference_cast_error
   <-> contains_Tensor (t_type_name src) = false
       \/ length (t_shape src) <> S (length static)
       \/ t_dtype src <> dt)
  /\ (forall e, (torch_to_enoki Scalar_t static src).2 = Throw e ->
        (torch_to_enoki Scalar_t static src).1 = []).
Proof.
  intros Hdt. split; [split|].
  - intros H. destruct (contains_Tensor (t_type_name src)) eqn:Hn; [|now left].
    right. destruct (decide (length (t_shape src) = S (length static)))
      as [Hr|Hr]; [|now left].
    right. intros Hd. revert H. unfold torch_to_enoki. rewrite Hn, Hdt. cbn.
    rewrite bool_decide_eq_false_2 by (intros H; now apply H).
    rewrite bool_decide_eq_true_2 by done. cbn.
    unfold cast_size_t_array.
    destruct (decide (_ /\ Forall _ (t_shape src))); cbn; [|done].
    destruct (decide (_ /\ Forall _ (t_stride src))); cbn; [|done].
    now destruct (copy_array_gather _ _ _ _ _ _).
  - intros H. now rewrite (torch_to_enoki_rejects _ _ _ _ Hdt H).
  - intros e. unfold torch_to_enoki.
    destruct (contains_Tensor _); cbn; [|done]. rewrite Hdt. cbn.
    destruct (_ || _); cbn; [done|].
    unfold cast_size_t_array.
    destruct (decide (_ /\ Forall _ (t_shape src))); cbn; [|done].
    destruct (decide (_ /\ Forall _ (t_stride src))); cbn; [|done].
    now destruct (copy_array_gather _ _ _ _ _ _).
Qed.

Lemma torch_to_enoki_throws_witness :
  (torch_to_enoki scalar_float [3%nat] tensor_1x2).2
    <> Throw reference_cast_error
  /\ (torch_to_enoki scalar_uint32_t [3%nat] tensor_1x2).2
     = Throw reference_cast_error.
Proof.
  split.
  - intros H.
    destruct (torch_to_enoki_throws scalar_float [3%nat] tensor_1x2 "float32"
                eq_refl) as [[Hto _] _].
    destruct (Hto H) as [H'|[H'|H']];
      [discriminate H'|now apply H'|now apply H'].
  - destruct (torch_to_enoki_throws scalar_uint32_t [3%nat] tensor_1x2 "int32"
                eq_refl) as [[_ Hfrom] _].
    apply Hfrom. right. right. discriminate.
Defined.

(** X14: when [torch_to_enoki] returns for an array type whose static
    sizes are the tensor's extents, the element at position
    (i_0, ..., i_n) of the result is the cell of the tensor at
    (sum of i_d * stride[n - d]) mod 2^32: the tensor's element
    (i_n, ..., i_0), read through a 32-bit index. *)
Theorem torch_to_enoki_reads {Scalar} Scalar_t static (src : tensor Scalar)
  log r :
  torch_to_enoki Scalar_t static src = (log, Ok r) ->
  has_static_shape (length static) 0 (rev (t_shape src))
    (default_array (Scalar := Scalar) static) = true ->
  forall idx, length idx = S (length static) ->
    visited idx 0 (rev (t_shape src)) ->
    is_Some (element idx r)
    /\ element idx r
       = t_storage src (to_uint32 (linear idx 0 (rev (t_stride src)))).
Proof.
  intros Hrun Hstatic idx Hidx Hvis.
  apply torch_to_enoki_Ok in Hrun as (_ & _ & Hrank & Hg).
  assert (Hlen : length (rev (t_shape src)) = S (length static))
    by now rewrite length_rev.
  rewrite copy_array_gather_gathered in Hg;
    [|lia|rewrite Hlen; now replace (S (length static) - 1 - 0)%nat
                         with (length static) by lia].
  rewrite Hlen in Hg.
  replace (S (length static) - 1 - 0)%nat with (length static) in Hg by lia.
  destruct (gathered_element _ _ _ _ _ _ _ idx Hg) as [H1 H2]; [done|done|].
  split; [done|]. now rewrite H2, Z.add_0_l.
Qed.

Lemma torch_to_enoki_reads_witness :
  exists r,
    (torch_to_enoki scalar_float [2%nat] tensor_1x2).2 = Ok r
    /\ element [1; 0] r = Some 20.
Proof.
  eexists. split; [vm_compute; reflexivity|].
  refine (proj2 (torch_to_enoki_reads scalar_float [2%nat] tensor_1x2
                   _ _ _ _ [1; 0] _ _));
    [vm_compute; reflexivity|reflexivity|reflexivity|].
  change (0 <= 1 < 2 /\ 0 <= 0 < 1). lia.
Defined.

(** X15: a tensor that passes the checks of [torch_to_enoki] but whose
    last extent exceeds the outermost static size of the array type makes
    the gather take a component past the end of the array: the conversion
    maps the tensor and then has undefined behaviour; no check of the
    conversion prevents it. *)
Theorem torch_to_enoki_extent_overflow {Scalar} Scalar_t (n : nat) static
  (src : tensor Scalar) :
  contains_Tensor (t_type_name src) = true ->
  torch_dtype Scalar_t = Ok (t_dtype src) ->
  length (t_shape src) = S (S (length static)) ->
  length (t_stride src) = S (S (length static)) ->
  Forall (fun x => 0 <= x < 2 ^ 64) (t_shape src) ->
  Forall (fun x => 0 <= x < 2 ^ 64) (t_stride src) ->
  Z.of_nat n < nth 0 (rev (t_shape src)) 0 ->
  torch_to_enoki Scalar_t (n :: static) src
  = ([map_memory (element_count (rev (t_shape src)));
      gather_memory (rev (t_shape src)) (rev (t_stride src))], Undefined).
Proof.
  intros Hname Hdt Hrank Hlen Hshape Hstride Hn.
  rewrite (torch_to_enoki_accepted Scalar_t (n :: static) src (t_dtype src))
    by done.
  cbn [default_array]. rewrite copy_array_gather_overflow; [done| |].
  - rewrite length_rev. lia.
  - now rewrite length_replicate.
Qed.

Lemma torch_to_enoki_extent_overflow_witness :
  torch_to_enoki scalar_float [1%nat] tensor_1x2
  = ([map_memory 2; gather_memory [2; 1] [1; 2]], Undefined).
Proof.
  apply (torch_to_enoki_extent_overflow scalar_float 1 [] tensor_1x2);
    [reflexivity|reflexivity|reflexivity|reflexivity
    |repeat constructor; lia|repeat constructor; lia|simpl; lia].
Defined.

(** X16: the element count a torch conversion hands to
    [CUDAArray::map] is the product of the extents taken mod 2^64: the
    [size_t] accumulation wraps, so a tensor of 2^64 elements is mapped
    with size 0. *)
Theorem mapped_size_wraps {Scalar} :
  (forall Scalar_t static (src : tensor Scalar) n,
     map_memory n ∈ (torch_to_enoki Scalar_t static src).1 ->
     n = foldr Z.mul 1 (t_shape src) mod 2 ^ 64)
  /\ (forall Scalar_t init (a : array Scalar) eval n,
        map_memory n ∈ (enoki_to_torch Scalar_t init a eval).1 ->
        n = foldr Z.mul 1 (shape a) mod 2 ^ 64).
Proof.
  split.
  - intros Scalar_t static src n Hn.
    destruct (torch_to_enoki_log Scalar_t static src) as [Hl|Hl];
      rewrite Hl in Hn; [now apply elem_of_nil in Hn|].
    apply elem_of_cons in Hn as [Hn|Hn].
    + injection Hn as ->. now rewrite element_count_product, product_rev.
    + apply elem_of_cons in Hn as [Hn|Hn]; [done|].
      now apply elem_of_nil in Hn.
  - intros Scalar_t init a eval n Hn.
    destruct (enoki_to_torch_log Scalar_t init a eval) as [Hl|(rest & Hl & Hr)];
      rewrite Hl in Hn; [now apply elem_of_nil in Hn|].
    apply elem_of_cons in Hn as [Hn|Hn].
    + injection Hn as ->. now rewrite element_count_product.
    + apply elem_of_cons in Hn as [Hn|Hn]; [done|].
      destruct Hr as [-> | ->]; [now apply elem_of_nil in Hn|].
      apply elem_of_cons in Hn as [Hn|Hn]; [done|].
      now apply elem_of_nil in Hn.
Qed.

Lemma mapped_size_wraps_witness :
  let src := {| t_type_name := "Tensor"; t_shape := [2 ^ 63; 2];
                t_dtype := "float32"; t_stride := [2; 1];
                t_storage := mem_of_list [10; 20] |} in
  torch_to_enoki scalar_float [2%nat] src
  = ([map_memory 0; gather_memory [2; 2 ^ 63] [1; 2]],
     Ok (StaticArray [DynArray []; DynArray []]))
  /\ 0 = foldr Z.mul 1 (t_shape src) mod 2 ^ 64.
Proof.
  intros src.
  assert (H : torch_to_enoki scalar_float [2%nat] src
              = ([map_memory 0; gather_memory [2; 2 ^ 63] [1; 2]],
                 Ok (StaticArray [DynArray []; DynArray []])))
    by (vm_compute; reflexivity).
  split; [exact H|].
  apply (proj1 (mapped_size_wraps (Scalar := Z)) scalar_float [2%nat] src 0).
  rewrite H. apply list_elem_of_here.
Defined.

(** * The accessors *)

(** X17: an assignment [a[index] = b] that returns was inside the static
    extent; reading the same index afterwards returns [b], the length is
    unchanged, and reading any other index gives what it gave before. *)
Theorem setitem_getitem {Scalar} (a a' b : array Scalar) (index : Z) :
  setitem a index b = Ok a' ->
  0 <= index < len a
  /\ getitem a' index = Ok (array_value b)
  /\ len a' = len a
  /\ forall j, j <> index -> getitem a' j = getitem a j.
Proof.
  unfold setitem, len. destruct a as [xs|cs]; [done|].
  destruct (decide (index >= Z.of_nat (length cs))) as [|Hlt]; [done|].
  cbn [set_coeff]. destruct (decide (0 <= index < Z.of_nat (length cs)))
    as [Hin|]; [|done].
  intros [= <-]. cbn [size]. rewrite length_insert.
  split; [done|]. split; [|split; [done|]].
  - unfold getitem. cbn [size]. rewrite length_insert.
    rewrite decide_False, decide_True by lia.
    rewrite list_lookup_insert_eq by lia. done.
  - intros j Hj. unfold getitem. cbn [size]. rewrite length_insert.
    destruct (decide (j >= Z.of_nat (length cs))); [done|].
    destruct (decide (0 <= j)); [|done].
    rewrite list_lookup_insert_ne by lia. done.
Qed.

Lemma setitem_getitem_witness :
  getitem (StaticArray [DynArray [1; 2; 3]; DynArray [7; 8; 9]]) 1
  = Ok (array_value (DynArray [7; 8; 9]))
  /\ getitem (StaticArray [DynArray [1; 2; 3]; DynArray [7; 8; 9]]) 0
     = getitem array_2x3 0.
Proof.
  destruct (setitem_getitem array_2x3
              (StaticArray [DynArray [1; 2; 3]; DynArray [7; 8; 9]])
              (DynArray [7; 8; 9]) 1 eq_refl) as (_ & Hget & _ & Hother).
  split; [exact Hget|]. apply Hother. lia.
Defined.

(** * The conversion to NumPy, element by element *)

(** X18: [enoki_to_numpy] on a regular array of at most 2^32 cells whose
    size in bytes fits a [size_t] returns an ndarray with the reversed
    shape and contiguous strides in bytes, over a buffer of exactly
    item size times element count bytes; the element at position
    (i_0, ..., i_n) of the array lies at the byte offset
    sum of i_d * strides[n - d], item-aligned and inside the buffer. *)
Theorem enoki_to_numpy_elements {Scalar} Scalar_t init (a : array Scalar)
  eval :
  0 < sizeof Scalar_t ->
  sizeof Scalar_t * capacity (shape a) < 2 ^ 64 ->
  regular a = true -> capacity (shape a) <= 2 ^ 32 ->
  exists log nd,
    enoki_to_numpy Scalar_t init a eval = (log, Ok nd)
    /\ nd_itemsize nd = sizeof Scalar_t
    /\ nd_shape nd = rev (shape a)
    /\ nd_strides nd
       = (fun v => sizeof Scalar_t * v) <$> contiguous_strides (rev (shape a))
    /\ nd_base_bytes nd = sizeof Scalar_t * foldr Z.mul 1 (shape a)
    /\ forall idx, length idx = length (shape a) -> visited idx 0 (shape a) ->
         let byte_offset := linear idx 0 (rev (nd_strides nd)) in
         0 <= byte_offset
         /\ byte_offset + nd_itemsize nd <= nd_base_bytes nd
         /\ byte_offset mod nd_itemsize nd = 0
         /\ is_Some (element idx a)
         /\ nd_data nd (byte_offset / nd_itemsize nd) = element idx a.
Proof.
  intros Hsz Hfit Hreg Hcap.
  destruct (enoki_to_numpy_regular Scalar_t init a eval Hsz Hfit Hreg Hcap)
    as (target' & Hsc & Hrun & Hg).
  eexists _, _. split; [exact Hrun|].
  cbn [nd_itemsize nd_shape nd_strides nd_data nd_base_bytes].
  do 4 (split; [done|]). intros idx Hidx Hvis.
  change ((fun v => sizeof Scalar_t * v) <$> ?l)
    with (map (fun v => sizeof Scalar_t * v) l).
  rewrite <- map_rev, contiguous_strides_dense.
  change (map (fun v => sizeof Scalar_t * v) ?l)
    with ((fun v => sizeof Scalar_t * v) <$> l).
  rewrite linear_scale.
  destruct (regular_linear_bound a idx Hcap Hidx Hvis) as [Hb Hp].
  repeat split.
  - nia.
  - nia.
  - rewrite Z.mul_comm. apply Z_mod_mult.
  - now apply (regular_elements a target' idx Hreg Hcap (Hg target' a
                 (fun _ _ => eq_refl) (has_shape_static _ _ _ _ Hreg))).
  - rewrite Z.mul_comm, Z.div_mul by lia.
    now apply (regular_elements a target' idx Hreg Hcap (Hg target' a
                 (fun _ _ => eq_refl) (has_shape_static _ _ _ _ Hreg))).
Qed.

Lemma enoki_to_numpy_elements_witness :
  exists log nd,
    enoki_to_numpy scalar_float (fun _ => 0) array_2x3 true = (log, Ok nd)
    /\ nd_shape nd = [3; 2]
    /\ nd_strides nd = [8; 4]
    /\ nd_base_bytes nd = 24
    /\ nd_data nd (20 / 4) = Some 6.
Proof.
  destruct (enoki_to_numpy_elements scalar_float (fun _ => 0) array_2x3 true)
    as (log & nd & Hrun & Hitem & Hshape & Hstride & Hbytes & Hel);
    [reflexivity|reflexivity|reflexivity|by vm_compute|].
  exists log, nd. split; [exact Hrun|]. split; [exact Hshape|].
  split; [exact Hstride|]. split; [exact Hbytes|].
  destruct (Hel [1; 2]) as (_ & _ & _ & _ & H);
    [reflexivity|change (0 <= 1 < 2 /\ 0 <= 2 < 3); lia|].
  rewrite Hstride, Hitem in H. exact H.
Defined.

(** X19: on a regular array, [enoki_to_numpy] and [enoki_to_torch] build
    the same memory: the same shape, strides that differ by the factor of
    the item size, and cell by cell the same contents. *)
Theorem numpy_torch_same_cells {Scalar} Scalar_t dt init (a : array Scalar)
  eval :
  torch_dtype Scalar_t = Ok dt ->
  0 < sizeof Scalar_t ->
  sizeof Scalar_t * capacity (shape a) < 2 ^ 64 ->
  regular a = true -> capacity (shape a) <= 2 ^ 32 ->
  exists log t log' nd,
    enoki_to_torch Scalar_t init a eval = (log, Ok t)
    /\ enoki_to_numpy Scalar_t init a eval = (log', Ok nd)
    /\ nd_shape nd = t_shape t
    /\ nd_strides nd = (fun v => sizeof Scalar_t * v) <$> t_stride t
    /\ forall j, nd_data nd j = t_storage t j.
Proof.
  intros Hdt Hsz Hfit Hreg Hcap.
  destruct (enoki_to_torch_regular Scalar_t dt init a eval Hdt Hreg Hcap)
    as (tt & Hsct & Hrunt & _).
  destruct (enoki_to_numpy_regular Scalar_t init a eval Hsz Hfit Hreg Hcap)
    as (tn & Hscn & Hrunn & _).
  eexists _, _, _, _. split; [exact Hrunt|]. split; [exact Hrunn|].
  cbn [nd_shape nd_strides nd_data t_shape t_stride t_storage].
  split; [done|]. split; [done|].
  pose proof (shape_length_pos a) as Hpos.
  rewrite copy_array_scatter_contract, Nat.sub_0_r, scatter_contract_flat
    in Hsct, Hscn by done.
  unfold scatter in Hsct, Hscn. cbn [m_cells m_size] in Hsct, Hscn.
  pose proof (scatter_lanes_ext (flat_values a)
                (flat_indices_rec (length (shape a) - 1) 0 0 (shape a)
                   (dense_strides 1 (shape a)))
                (CUDAManagedBuffer (sizeof Scalar_t) init
                   (sizeof Scalar_t * foldr Z.mul 1 (shape a)))
                (t_storage (torch_empty init (rev (shape a)) dt))) as Hext.
  destruct (scatter_lanes (CUDAManagedBuffer _ _ _) _ _) as [cn|];
    [|done].
  destruct (scatter_lanes (t_storage _) _ _) as [ct|]; [|done].
  injection Hsct as <-. injection Hscn as <-. cbn [m_cells].
  apply Hext. intros j. unfold CUDAManagedBuffer. cbn [t_storage torch_empty].
  rewrite product_rev.
  destruct (decide (0 <= j < foldr Z.mul 1 (shape a))) as [Hj|Hj].
  - rewrite decide_True; [done|]. split; [lia|nia].
  - rewrite decide_False; [done|]. intros [H0 H1]. apply Hj. split; [done|nia].
Qed.

Lemma numpy_torch_same_cells_witness :
  exists log t log' nd,
    enoki_to_torch scalar_float (fun _ => 0) array_2x3 true = (log, Ok t)
    /\ enoki_to_numpy scalar_float (fun _ => 0) array_2x3 true = (log', Ok nd)
    /\ nd_shape nd = t_shape t
    /\ nd_strides nd = (fun v => 4 * v) <$> t_stride t
    /\ forall j, nd_data nd j = t_storage t j.
Proof.
  apply (numpy_torch_same_cells scalar_float "float32" (fun _ => 0)
           array_2x3 true);
    [reflexivity|reflexivity|reflexivity|reflexivity|by vm_compute].
Defined.

(** * A tensor shorter than the array type *)

(** X20: [torch_to_enoki] never compares the tensor's last extent [m]
    with the outermost static size [n] of the array type.  Whenever it
    returns, [m <= n] and only the first [m] components of the result
    were gathered: the remaining [n - m] are still default-constructed,
    for every tensor, not just for one. *)
Theorem torch_to_enoki_short_tensor {Scalar} Scalar_t (n : nat) static
  (src : tensor Scalar) log r :
  torch_to_enoki Scalar_t (n :: static) src = (log, Ok r) ->
  has_static_shape (length static) 1 (rev (t_shape src))
    (default_array (Scalar := Scalar) static) = true ->
  let m := Z.to_nat (nth 0 (rev (t_shape src)) 0) in
  exists cs,
    r = StaticArray (cs ++ replicate (n - m) (default_array static))
    /\ length cs = m /\ (m <= n)%nat.
Proof.
  intros Hrun Hstatic m.
  apply torch_to_enoki_Ok in Hrun as (_ & _ & Hrank & Hg).
  cbn [length] in Hrank.
  assert (Hlen : length (rev (t_shape src)) = S (S (length static)))
    by now rewrite length_rev.
  assert (Hmn : (m <= n)%nat).
  { destruct (decide (m <= n)%nat) as [|Hgt]; [done|]. exfalso.
    cbn [default_array] in Hg. rewrite copy_array_gather_overflow in Hg;
      [done|lia|]. rewrite length_replicate. unfold m in Hgt. lia. }
  unfold copy_array_gather in Hg. rewrite decide_True in Hg by lia.
  rewrite copy_array_gather_rec_contract, Hlen in Hg.
  replace (S (S (length static)) - 1 - 0)%nat with (S (length static))
    in Hg by lia.
  cbn [gather_contract default_array] in Hg. fold m in Hg.
  rewrite (gather_loop_mapM _
    (fun i => gathered (length static) 1
                (0 + i * nth 0 (rev (t_stride src)) 0)
                (rev (t_shape src)) (rev (t_stride src))
                (Mapped (t_storage src) (element_count (rev (t_shape src)))))
    (fun t0 => has_static_shape (length static) 1 (rev (t_shape src)) t0
               = true)) in Hg.
  - destruct (mapM _ _) as [cs|] eqn:Hcs; [|done]. injection Hg as <-.
    exists cs. split; [|split; [|done]].
    + change (Z.to_nat 0) with 0%nat. cbn [take app Nat.add].
      now rewrite drop_replicate.
    + apply length_mapM in Hcs. rewrite <- Hcs, length_seqZ. lia.
  - intros i t0 Hok. now apply gather_contract_gathered.
  - lia.
  - rewrite length_replicate. lia.
  - intros b t0 _ Hb. apply lookup_replicate in Hb as [-> _]. exact Hstatic.
Qed.

Lemma torch_to_enoki_short_tensor_witness :
  exists cs,
    (torch_to_enoki scalar_float [3%nat] tensor_1x2).2
    = Ok (StaticArray (cs ++ [DynArray []]))
    /\ length cs = 2%nat.
Proof.
  destruct (torch_to_enoki_short_tensor scalar_float 3 [] tensor_1x2
              [map_memory 2; gather_memory [2; 1] [1; 2]]
              (StaticArray [DynArray [10]; DynArray [20]; DynArray []])
              eq_refl eq_refl) as (cs & Hr & Hlen & _).
  exists cs. split; [exact (f_equal Ok Hr)|exact Hlen].
Defined.
